(** * ckeditor5-anchor: the anchor range resolver and the anchor / unanchor commands

    A shallow embedding of [findanchorrange.js], [anchorcommand.js] and
    [unanchorcommand.js], with the properties of the specification proved on
    it, and of the helpers of [utils.js] and the listeners of
    [anchorediting.js].

    The editing engine (positions, ranges, the writer, the schema, the
    selection) is an external dependency of the plugin.  It is modelled here
    as far as these files use it:

    - the inline children of the block the selection lives in are a list of
      nodes; a text node occupies as many offsets as its data has characters,
      every other node occupies one offset and has no children; a position is
      an offset in this list and a range is a pair of offsets;
    - writing an attribute on a range splits the text nodes at both ends of
      the range and changes every node in between.  The engine keeps
      neighbouring text nodes with the same attributes merged into one; the
      lists here are not re-merged, which is why the theorems about written
      attributes are stated offset by offset ([flatten]).  Merging is
      modelled where the code depends on it: a node that [insertContent]
      has merged into a neighbour is no child any more, and
      [writer.createRangeOn] throws on it;
    - the schema decides from the name of an item and its attributes; the
      valid ranges of a selection are computed on the document as it is
      before the command writes; [insertContent] removes from the inserted
      node the attributes that the schema does not permit;
    - the selection has its ranges and its own attributes.  [sel_attrs] are
      the attributes as the commands and the listeners read and write them.
      When a change is over the engine derives the attributes of the
      selection anew from the content; that is outside this code and not
      modelled, so no statement speaks of the attributes that the selection
      has after a command;
    - a command returns [None] when it does not return: the loop of the
      resolver running out of fuel, a position missing (the theorems show
      that these do not happen), or [writer.createRangeOn] throwing. *)

From stdpp Require Import base option list gmap strings.
From Stdlib Require Import Ascii.

(** ** JavaScript values stored in attributes *)

(** An attribute holds a string (an identifier) or a boolean (a decorator);
    [getAttribute] returns [undefined], here [None], for a missing key. *)
Inductive attr_value :=
  | VBool (b : bool)
  | VStr (s : string).

Global Instance attr_value_eq_dec : EqDecision attr_value.
Proof. solve_decision. Defined.

Abbreviation attrs := (gmap string attr_value).

(** ** Nodes, offsets and positions *)

Inductive node :=
  | Text (data : string) (a : attrs)
  | Element (name : string) (a : attrs).

Definition node_attrs (n : node) : attrs :=
  match n with
  | Text _ a => a
  | Element _ a => a
  end.

Definition is_text (n : node) : bool :=
  match n with
  | Text _ _ => true
  | Element _ _ => false
  end.

Definition getAttribute (n : node) (key : string) : option attr_value :=
  node_attrs n !! key.

Definition offsetSize (n : node) : nat :=
  match n with
  | Text data _ => String.length data
  | Element _ _ => 1
  end.

Definition maxOffset (ns : list node) : nat :=
  foldr (fun n acc => offsetSize n + acc) 0 ns.

(** [NodeList.offsetToIndex]: the index of the node that occupies [offset],
    the number of nodes when [offset] is the end of the list. *)
Fixpoint offsetToIndex (ns : list node) (offset : nat) : nat :=
  match ns with
  | [] => 0
  | n :: rest =>
      if offset <? offsetSize n then 0
      else S (offsetToIndex rest (offset - offsetSize n))
  end.

Definition startOffset (ns : list node) (i : nat) : nat :=
  maxOffset (take i ns).

(** References to nodes are indices in the list of siblings; [None] is [null]. *)
Definition previousSibling (i : nat) : option nat :=
  match i with
  | 0 => None
  | S j => Some j
  end.

Definition nextSibling (ns : list node) (i : nat) : option nat :=
  if S i <? length ns then Some (S i) else None.

(** [position.textNode]: the text node the position is strictly inside of. *)
Definition textNode (ns : list node) (position : nat) : option nat :=
  let i := offsetToIndex ns position in
  match ns !! i with
  | Some n => if is_text n && (startOffset ns i <? position) then Some i else None
  | None => None
  end.

Definition nodeAfter (ns : list node) (position : nat) : option nat :=
  match textNode ns position with
  | Some _ => None
  | None =>
      let i := offsetToIndex ns position in
      if i <? length ns then Some i else None
  end.

Definition nodeBefore (ns : list node) (position : nat) : option nat :=
  match textNode ns position with
  | Some _ => None
  | None => previousSibling (offsetToIndex ns position)
  end.

Inductive where_ := before | after.

(** [model.createPositionAt(node, 'before' | 'after')]. *)
Definition createPositionAt (ns : list node) (i : nat) (w : where_) : nat :=
  match w with
  | before => startOffset ns i
  | after => startOffset ns (S i)
  end.

Abbreviation range := (nat * nat)%type.

(** JavaScript's [==] between a boolean and a string compares the numbers
    both convert to; the conversion of a string to a number is floating-point
    parsing and stays a parameter of the development. *)
Class BoolStringEq := bool_eq_string : bool -> string -> bool.

Section Resolver.

Context {coerce : BoolStringEq}.

(** [x == y] on attribute values and [undefined]. *)
Definition loose_eq (x y : option attr_value) : bool :=
  match x, y with
  | None, None => true
  | Some (VStr s), Some (VStr t) => bool_decide (s = t)
  | Some (VBool b), Some (VBool c) => bool_decide (b = c)
  | Some (VBool b), Some (VStr s) => bool_eq_string b s
  | Some (VStr s), Some (VBool b) => bool_eq_string b s
  | _, _ => false
  end.

(** [node.getAttribute( 'anchorId' ) == value]. *)
Definition node_matches (value : option attr_value) (n : node) : bool :=
  loose_eq (getAttribute n "anchorId") value.

(** The loop condition of [_findBound]:
    [node && node.getAttribute( 'anchorId' ) == value]. *)
Definition matches (ns : list node) (value : option attr_value) (node : option nat) : bool :=
  match node ≫= (ns !!.) with
  | Some n => node_matches value n
  | None => false
  end.

(** The [while] loop of [_findBound].  Every turn of the loop uses one unit
    of [fuel]; [None] means the fuel ran out. *)
Fixpoint walk (fuel : nat) (ns : list node) (value : option attr_value)
    (lookBack : bool) (node lastNode : option nat) : option (option nat) :=
  if matches ns value node then
    match fuel with
    | 0 => None
    | S fuel' =>
        walk fuel' ns value lookBack
          (i ← node; if lookBack then previousSibling i else nextSibling ns i)
          node
    end
  else Some lastNode.

(** [position.textNode || ( lookBack ? position.nodeBefore : position.nodeAfter )]. *)
Definition first_node (ns : list node) (position : nat) (lookBack : bool) : option nat :=
  match textNode ns position with
  | Some t => Some t
  | None => if lookBack then nodeBefore ns position else nodeAfter ns position
  end.

Definition _findBound (ns : list node) (position : nat) (value : option attr_value)
    (lookBack : bool) : option nat :=
  let node := first_node ns position lookBack in
  lastNode ← walk (length ns) ns value lookBack node None;
  Some match lastNode with
       | Some l => createPositionAt ns l (if lookBack then before else after)
       | None => position
       end.

Definition findAnchorRange (ns : list node) (position : nat) (value : option attr_value)
    : option range :=
  s ← _findBound ns position value true;
  e ← _findBound ns position value false;
  Some (s, e).

End Resolver.

(** ** The engine's writer, schema and selection *)

(** One offset of the content: a character of a text node or a whole object,
    with the attributes of the node it belongs to. *)
Inductive unit_kind :=
  | UChar (c : ascii)
  | UObject (name : string).

Abbreviation cell := (unit_kind * attrs)%type.

Definition flatten_node (n : node) : list cell :=
  match n with
  | Text data a => (fun c => (UChar c, a)) <$> String.list_ascii_of_string data
  | Element name a => [(UObject name, a)]
  end.

Definition flatten (ns : list node) : list cell :=
  ns ≫= flatten_node.

(** Splitting the text node that [offset] is strictly inside of. *)
Fixpoint splitAt (offset : nat) (ns : list node) : list node :=
  match ns with
  | [] => []
  | n :: rest =>
      if offset =? 0 then ns
      else if offsetSize n <=? offset then n :: splitAt (offset - offsetSize n) rest
      else
        match n with
        | Text data a =>
            Text (String.substring 0 offset data) a
              :: Text (String.substring offset (String.length data - offset) data) a
              :: rest
        | Element _ _ => ns
        end
  end.

Fixpoint items_from (off : nat) (ns : list node) : list (nat * node) :=
  match ns with
  | [] => []
  | n :: rest => (off, n) :: items_from (off + offsetSize n) rest
  end.

Definition inside (r : range) (x : nat * node) : bool :=
  (fst r <=? fst x) && (fst x + offsetSize (snd x) <=? snd r).

(** [range.getItems( { shallow: true } )] of a flat range: the nodes inside
    the range, a text node cut by an end of the range contributing the part
    inside; each item comes with its start offset. *)
Definition getItems (ns : list node) (r : range) : list (nat * node) :=
  List.filter (inside r) (items_from 0 (splitAt r.2 (splitAt r.1 ns))).

(** [node._setAttribute( key, value )], or [node._removeAttribute( key )]
    when the value is [null], here [None]. *)
Definition set_attr (key : string) (value : option attr_value) (a : attrs) : attrs :=
  match value with
  | Some v => <[key := v]> a
  | None => delete key a
  end.

Definition node_setAttribute (key : string) (value : option attr_value) (n : node) : node :=
  match n with
  | Text data a => Text data (set_attr key value a)
  | Element name a => Element name (set_attr key value a)
  end.

(** The attribute operation behind [writer.setAttribute( key, value, range )]
    and, with [None] for the value, [writer.removeAttribute( key, range )]. *)
Definition setAttributeOnRange (key : string) (value : option attr_value) (r : range)
    (ns : list node) : list node :=
  (fun x => if inside r x then node_setAttribute key value x.2 else x.2)
    <$> items_from 0 (splitAt r.2 (splitAt r.1 ns)).

(** What the schema looks at in an item: its name, ['$text'] for text, and
    its attributes. *)
Definition schema_item (n : node) : string * attrs :=
  match n with
  | Text _ a => ("$text", a)
  | Element name a => (name, a)
  end.

Record Model := {
  nodes : list node;
  sel_ranges : list range;
  sel_attrs : attrs;
  schema_checkAttribute : string * attrs -> string -> bool
}.

(** The writer changes the nodes; the selection is not touched while the
    change is being made. *)
Definition set_nodes (ns : list node) (m : Model) : Model :=
  {| nodes := ns; sel_ranges := sel_ranges m; sel_attrs := sel_attrs m;
     schema_checkAttribute := schema_checkAttribute m |}.

Definition writer_setAttribute (key : string) (value : attr_value) (r : range) (m : Model) : Model :=
  set_nodes (setAttributeOnRange key (Some value) r (nodes m)) m.

Definition writer_removeAttribute (key : string) (r : range) (m : Model) : Model :=
  set_nodes (setAttributeOnRange key None r (nodes m)) m.

(** [writer.setSelection( range )]: the selection gets the one range.  The
    attributes that the engine then derives for it are not modelled. *)
Definition writer_setSelection (r : range) (m : Model) : Model :=
  {| nodes := nodes m; sel_ranges := [r]; sel_attrs := sel_attrs m;
     schema_checkAttribute := schema_checkAttribute m |}.

(** [selection.isCollapsed]: one range, and that range is collapsed. *)
Definition isCollapsed (m : Model) : bool :=
  match sel_ranges m with
  | [r] => bool_decide (r.1 = r.2)
  | _ => false
  end.

Definition getFirstRange (m : Model) : option range :=
  foldl (fun first r =>
           match first with
           | None => Some r
           | Some f => if fst r <? fst f then Some r else Some f
           end) None (sel_ranges m).

Definition getFirstPosition (m : Model) : option nat :=
  fst <$> getFirstRange m.

Definition hasAttribute (m : Model) (key : string) : bool :=
  bool_decide (is_Some (sel_attrs m !! key)).

(** The loop of [Schema._getValidRangesForRange]; an element of the list has
    no children here, so the recursion into elements yields nothing. *)
Fixpoint validRanges_loop (check : string * attrs -> string -> bool) (attribute : string)
    (items : list (nat * node)) (start end_ : nat) : list range :=
  match items with
  | [] => if bool_decide (start = end_) then [] else [(start, end_)]
  | (off, item) :: rest =>
      let after_item := off + offsetSize item in
      if check (schema_item item) attribute
      then validRanges_loop check attribute rest start after_item
      else (if bool_decide (start = end_) then [] else [(start, end_)])
             ++ validRanges_loop check attribute rest after_item after_item
  end.

Definition getValidRanges (m : Model) (ranges : list range) (attribute : string) : list range :=
  r ← ranges;
  validRanges_loop (schema_checkAttribute m) attribute (getItems (nodes m) r) r.1 r.1.

(** Two neighbouring text nodes with the same attributes are one text node
    to the engine, which merges them ([_mergeNodesAtIndex]). *)
Definition mergeable (a b : node) : bool :=
  match a, b with
  | Text _ x, Text _ y => bool_decide (x = y)
  | _, _ => false
  end.

(** The node at index [i] is merged into the sibling after it or before it. *)
Definition merged (ns : list node) (i : nat) : bool :=
  match ns !! i with
  | Some n =>
      match ns !! S i with
      | Some next => mergeable n next
      | None => false
      end
      || match i with
         | S j =>
             match ns !! j with
             | Some previous => mergeable previous n
             | None => false
             end
         | 0 => false
         end
  | None => false
  end.

(** One turn of [schema.removeDisallowedAttributes] on the text node at
    index [i]: an attribute that the schema does not permit on the node, as
    the node is then, is removed from it; the node may then have the
    attributes of a neighbour and be merged into it.  The state is the list
    and whether the node is still a child of its own. *)
Definition removeDisallowedAttribute (check : string * attrs -> string -> bool) (i : nat)
    (st : list node * bool) (attribute : string) : list node * bool :=
  if snd st then
    match fst st !! i with
    | Some (Text data a) =>
        if check ("$text", a) attribute then st
        else
          let ns := <[i := Text data (delete attribute a)]> (fst st) in
          (ns, negb (merged ns i))
    | _ => st
    end
  else st.

(** [model.insertContent( node, position )] for a single text node, in a
    block that takes text.  The node becomes a child at [position], a text
    node around [position] being split, and the engine merges it into a
    neighbouring text node that has the same attributes.  Then the
    attributes that the schema does not permit on the node are removed from
    it, in the order of the map here (the engine goes by the order in which
    they were set).  Returns the new list and the index of the inserted
    node, or [None] for the index when the node has been merged into a
    neighbour and is no child any more.  The list keeps the characters of
    the node as an item of their own in this case too, as no text nodes are
    merged in the lists of the model. *)
Definition insertContent (check : string * attrs -> string -> bool) (n : node)
    (position : nat) (ns : list node) : list node * option nat :=
  let ns' := splitAt position ns in
  let i := offsetToIndex ns' position in
  let inserted := take i ns' ++ n :: drop i ns' in
  let filtered :=
    foldl (removeDisallowedAttribute check i) (inserted, negb (merged inserted i))
      (map_to_list (node_attrs n)).*1 in
  (fst filtered, if snd filtered then Some i else None).

(** [writer.createRangeOn( node )] for the child at index [i]. *)
Definition createRangeOn (ns : list node) (i : nat) : range :=
  (startOffset ns i, startOffset ns (S i)).

(** ** The commands *)

(** The object passed as [manualDecoratorIds]: its keys in enumeration order
    with their values. *)
Abbreviation js_object := (list (string * bool)).

Definition js_keys (o : js_object) : list string := o.*1.

Definition js_get (o : js_object) (key : string) : option bool :=
  snd <$> List.find (fun kv => bool_decide (kv.1 = key)) o.

Definition truthy (v : option bool) : bool :=
  match v with
  | Some b => b
  | None => false
  end.

Record ManualDecorator := {
  md_id : string;
  md_value : option attr_value
}.

Record AnchorCommand := {
  manualDecorators : list ManualDecorator
}.

Record Editor := {
  model : Model;
  commands_anchor : option AnchorCommand
}.

Section Commands.

Context {coerce : BoolStringEq}.

(** The first loop of [AnchorCommand.execute]: the names flagged true and
    the names flagged false, each in enumeration order. *)
Definition splitDecorators (manualDecoratorIds : js_object) : list string * list string :=
  foldl (fun acc name =>
           if truthy (js_get manualDecoratorIds name)
           then (acc.1 ++ [name], acc.2)
           else (acc.1, acc.2 ++ [name]))
        ([], []) (js_keys manualDecoratorIds).

Definition applyDecorators (truthyManualDecorators falsyManualDecorators : list string)
    (r : range) (m : Model) : Model :=
  let m1 := foldl (fun m item => writer_setAttribute item (VBool true) r m) m
              truthyManualDecorators in
  foldl (fun m item => writer_removeAttribute item r m) m1 falsyManualDecorators.

(** [AnchorCommand.execute( id, manualDecoratorIds )]; [None] stands for a
    run that does not return: [writer.createRangeOn( node )] throws when the
    inserted node has been merged into a neighbour. *)
Definition AnchorCommand_execute (m : Model) (id : string) (manualDecoratorIds : js_object)
    : option Model :=
  let '(truthyManualDecorators, falsyManualDecorators) := splitDecorators manualDecoratorIds in
  if isCollapsed m then
    position ← getFirstPosition m;
    if hasAttribute m "anchorId" then
      anchorRange ← findAnchorRange (nodes m) position (sel_attrs m !! "anchorId");
      let m1 := writer_setAttribute "anchorId" (VStr id) anchorRange m in
      let m2 := applyDecorators truthyManualDecorators falsyManualDecorators anchorRange m1 in
      Some (writer_setSelection anchorRange m2)
    else if negb (bool_decide (id = "")) then
      let attributes := sel_attrs m in
      let attributes := <["anchorId" := VStr id]> attributes in
      let attributes :=
        foldl (fun a item => <[item := VBool true]> a) attributes truthyManualDecorators in
      let node := Text id attributes in
      let '(ns, inserted) :=
        insertContent (schema_checkAttribute m) node position (nodes m) in
      let m1 := set_nodes ns m in
      i ← inserted;
      Some (writer_setSelection (createRangeOn ns i) m1)
    else Some m
  else
    let ranges := getValidRanges m (sel_ranges m) "anchorId" in
    Some (foldl (fun m r =>
                   let m1 := writer_setAttribute "anchorId" (VStr id) r m in
                   applyDecorators truthyManualDecorators falsyManualDecorators r m1)
                m ranges).

(** [UnanchorCommand.execute()]. *)
Definition UnanchorCommand_execute (editor : Editor) : option Editor :=
  let m := model editor in
  let anchorCommand := commands_anchor editor in
  rangesToUnanchor ←
    (if isCollapsed m then
       position ← getFirstPosition m;
       r ← findAnchorRange (nodes m) position (sel_attrs m !! "anchorId");
       Some [r]
     else Some (sel_ranges m));
  let m' :=
    foldl (fun m r =>
             let m1 := writer_removeAttribute "anchorId" r m in
             match anchorCommand with
             | Some c =>
                 foldl (fun m manualDecorator => writer_removeAttribute (md_id manualDecorator) r m)
                       m1 (manualDecorators c)
             | None => m1
             end)
          m rangesToUnanchor in
  Some {| model := m'; commands_anchor := anchorCommand |}.

End Commands.

(** ** Vocabulary of the statements *)

Global Arguments flatten : simpl never.

(** The node carries the identifier [v]. *)
Definition carries (v : string) (n : node) : Prop :=
  getAttribute n "anchorId" = Some (VStr v).

(** The identifier of the node, when it has one, is a string, as the data
    model has it. *)
Definition string_id (n : node) : Prop :=
  forall b, getAttribute n "anchorId" <> Some (VBool b).

(** No node of the list, laid out from offset [off], has offset [o] strictly
    inside. *)
Fixpoint nostraddle (o off : nat) (ns : list node) : Prop :=
  match ns with
  | [] => True
  | n :: rest => ~ (off < o < off + offsetSize n) /\ nostraddle o (off + offsetSize n) rest
  end.

Definition in_range (r : range) (o : nat) : bool :=
  (fst r <=? o) && (o <? snd r).

Definition covered (rs : list range) (o : nat) : bool :=
  existsb (fun r => in_range r o) rs.

Definition cell_map (f : attrs -> attrs) (c : cell) : cell := (c.1, f c.2).

Fixpoint map_range (f : cell -> cell) (r : range) (off : nat) (cs : list cell) : list cell :=
  match cs with
  | [] => []
  | c :: rest => (if in_range r off then f c else c) :: map_range f r (S off) rest
  end.

(** What the schema looks at for one offset of the content. *)
Definition cell_item (c : cell) : string * attrs :=
  (match c.1 with UChar _ => "$text" | UObject name => name end, c.2).

(** The schema permits [attribute] on what lies at offset [o]. *)
Definition permitted (m : Model) (attribute : string) (o : nat) : bool :=
  match flatten (nodes m) !! o with
  | Some c => schema_checkAttribute m (cell_item c) attribute
  | None => false
  end.

(** [cs'] is [cs] with the attributes rewritten on the offsets in [P]: the
    same characters and objects at the same offsets, attributes related by
    [R] where [P] holds and equal elsewhere. *)
Definition rewritten (P : nat -> bool) (R : attrs -> attrs -> Prop) (cs cs' : list cell) : Prop :=
  length cs' = length cs /\
  forall o c, cs !! o = Some c ->
    exists c', cs' !! o = Some c' /\ c'.1 = c.1 /\
      if P o then R c.2 c'.2 else c'.2 = c.2.

(** The attributes [a'] are [a] after the anchor command: the identifier is
    [id], a name flagged true is [true], a name flagged false is absent and
    every other attribute is as it was. *)
Definition anchor_attrs (id : string) (flags : js_object) (a a' : attrs) : Prop :=
  a' !! "anchorId" = Some (VStr id) /\
  (forall name, js_get flags name = Some true -> a' !! name = Some (VBool true)) /\
  (forall name, js_get flags name = Some false -> a' !! name = None) /\
  (forall key, key <> "anchorId" -> js_get flags key = None -> a' !! key = a !! key).

(** The attributes [a'] of an inserted text node: the selection's attributes
    [a] plus the identifier plus the names flagged true. *)
Definition inserted_attrs (id : string) (flags : js_object) (a a' : attrs) : Prop :=
  a' !! "anchorId" = Some (VStr id) /\
  (forall name, js_get flags name = Some true -> a' !! name = Some (VBool true)) /\
  (forall key, key <> "anchorId" -> js_get flags key <> Some true -> a' !! key = a !! key).


(** The ids of the decorators of the registered anchor command. *)
Definition decorator_ids (editor : Editor) : list string :=
  match commands_anchor editor with
  | Some c => md_id <$> manualDecorators c
  | None => []
  end.



(** What one pass of the anchor command writes on the attributes of a node,
    and the pass itself. *)
Definition anchor_write (id : string) (t f : list string) (a : attrs) : attrs :=
  foldl (fun a item => set_attr item None a)
    (foldl (fun a item => set_attr item (Some (VBool true)) a) (<["anchorId" := VStr id]> a) t) f.

Definition anchor_op (id : string) (t f : list string) (r : range) (m : Model) : Model :=
  applyDecorators t f r (writer_setAttribute "anchorId" (VStr id) r m).

Definition unanchor_write (ids : list string) (a : attrs) : attrs :=
  foldl (fun a item => set_attr item None a) (delete "anchorId" a) ids.

Definition unanchor_op (ids : list string) (r : range) (m : Model) : Model :=
  foldl (fun m item => writer_removeAttribute item r m) (writer_removeAttribute "anchorId" r m) ids.

(** ** Sample documents *)

(** An instance of the comparison parameter for the samples, none of which
    compares a boolean with a string. *)
Definition no_coercion : BoolStringEq := fun _ _ => false.

(** A schema that permits attributes on text only. *)
Definition text_only (item : string * attrs) (attribute : string) : bool :=
  bool_decide (item.1 = "$text").

Definition id_x : attrs := {["anchorId" := VStr "x"]}.

(** Three neighbours with identifier [x]: offsets 0-1, 1-3 and 3-4. *)
Definition node_A : node := Text "A" id_x.
Definition node_B : node := Text "BB" (<["bold" := VBool true]> id_x).
Definition node_C : node := Element "img" id_x.
Definition doc_ABC : list node := [node_A; node_B; node_C].

Definition with_selection (ns : list node) (rs : list range) (a : attrs) : Model :=
  {| nodes := ns; sel_ranges := rs; sel_attrs := a; schema_checkAttribute := text_only |}.

(** The caret inside [B]. *)
Definition caret_in_B : Model := with_selection doc_ABC [(2, 2)] id_x.

(** [B] and [C] selected. *)
Definition selected_BC : Model := with_selection doc_ABC [(1, 4)] id_x.

(** The caret in plain text, the selection carrying a decorator set to
    [false] and no identifier. *)
Definition caret_in_plain : Model :=
  with_selection [Text "ab" ∅] [(1, 1)] {["anchorFoo" := VBool false]}.

(** The identifier at every offset of the content. *)
Definition ids_of (m : Model) : list (option attr_value) :=
  (fun c => c.2 !! "anchorId") <$> flatten (nodes m).

Definition editor_of (m : Model) (ids : list string) : Editor :=
  {| model := m;
     commands_anchor :=
       Some {| manualDecorators := (fun i => {| md_id := i; md_value := None |}) <$> ids |} |}.

(** The schema of the plugin alone: [anchorId] on text and nothing else. *)
Definition anchorId_only (item : string * attrs) (attribute : string) : bool :=
  bool_decide (item.1 = "$text") && bool_decide (attribute = "anchorId").





(** The caret right after the text of the anchor [x], the selection not
    having the identifier. *)
Definition caret_after_anchor : Model :=
  {| nodes := [Text "x" id_x; Text "ab" ∅]; sel_ranges := [(1, 1)]; sel_attrs := ∅;
     schema_checkAttribute := anchorId_only |}.

(** The caret at the end of the anchor [x], the selection having the
    identifier, a decorator and [bold]. *)
Definition caret_at_end_of_anchor : Model :=
  with_selection [Text "x" id_x; Text "ab" ∅] [(1, 1)]
    (<["anchorIsExternal" := VBool true]> (<["bold" := VBool true]> id_x)).

(** ** Vocabulary of the further properties *)

(** The cell carries an identifier loosely equal to [value]. *)
Definition cell_matches `{BoolStringEq} (value : option attr_value) (c : cell) : bool :=
  loose_eq (c.2 !! "anchorId") value.

(** No node is empty: the engine keeps no text node without data. *)
Definition no_empty_node (ns : list node) : Prop :=
  Forall (fun n => 0 < offsetSize n) ns.

(** The length of the longest prefix of [l] whose elements satisfy [f]. *)
Fixpoint prefix_len {A} (f : A -> bool) (l : list A) : nat :=
  match l with
  | [] => 0
  | x :: rest => if f x then S (prefix_len f rest) else 0
  end.

(** ** The states of the commands *)

(** [Schema.checkAttributeInSelection( selection, attribute )]: with a
    collapsed selection the schema is asked about a text with the selection's
    attributes; otherwise about the items of the selected ranges, and one
    item that permits the attribute is enough. *)
Definition checkAttributeInSelection (m : Model) (attribute : string) : bool :=
  if isCollapsed m then schema_checkAttribute m ("$text", sel_attrs m) attribute
  else
    existsb (fun r =>
               existsb (fun x => schema_checkAttribute m (schema_item (snd x)) attribute)
                       (getItems (nodes m) r))
            (sel_ranges m).

Definition _getDecoratorStateFromModel (m : Model) (decoratorName : string)
    : option attr_value :=
  sel_attrs m !! decoratorName.

(** [AnchorCommand.restoreManualDecoratorStates()]. *)
Definition restoreManualDecoratorStates (m : Model) (c : AnchorCommand) : AnchorCommand :=
  {| manualDecorators :=
       (fun manualDecorator =>
          {| md_id := md_id manualDecorator;
             md_value := _getDecoratorStateFromModel m (md_id manualDecorator) |})
         <$> manualDecorators c |}.

(** What [AnchorCommand.refresh()] sets: [value], the decorators and
    [isEnabled]. *)
Record AnchorCommandState := {
  cmd_value : option attr_value;
  cmd_command : AnchorCommand;
  cmd_isEnabled : bool
}.

Definition AnchorCommand_refresh (m : Model) (c : AnchorCommand) : AnchorCommandState :=
  {| cmd_value := sel_attrs m !! "anchorId";
     cmd_command := restoreManualDecoratorStates m c;
     cmd_isEnabled := checkAttributeInSelection m "anchorId" |}.

(** [UnanchorCommand.refresh()] sets [isEnabled]. *)
Definition UnanchorCommand_refresh (m : Model) : bool :=
  hasAttribute m "anchorId".

(** ** The fixer of the selection attributes *)

Definition node_hasAttribute (ns : list node) (i : nat) (key : string) : bool :=
  match ns !! i with
  | Some n => bool_decide (is_Some (getAttribute n key))
  | None => false
  end.

Definition writer_removeSelectionAttribute (key : string) (m : Model) : Model :=
  {| nodes := nodes m; sel_ranges := sel_ranges m; sel_attrs := delete key (sel_attrs m);
     schema_checkAttribute := schema_checkAttribute m |}.

(** [selection.getAttributeKeys()]. *)
Definition getAttributeKeys (m : Model) : list string :=
  (map_to_list (sel_attrs m)).*1.

(** The listener that [_enableInsertContentSelectionAttributesFixer] puts on
    [insertContent]; [anchor] is [selection.anchor]. *)
Definition insertContentFixer (m : Model) (anchor : nat) : Model :=
  let nodeBefore := nodeBefore (nodes m) anchor in
  let nodeAfter := nodeAfter (nodes m) anchor in
  if negb (hasAttribute m "anchorId") then m
  else
    match nodeBefore with
    | None => m
    | Some b =>
        if negb (node_hasAttribute (nodes m) b "anchorId") then m
        else if match nodeAfter with
                | Some a => node_hasAttribute (nodes m) a "anchorId"
                | None => false
                end
        then m
        else
          foldl (fun m name => writer_removeSelectionAttribute name m) m
            (List.filter (fun name => String.prefix "anchor" name) (getAttributeKeys m))
    end.

(** The case in which the listener acts: the selection has [anchorId], the
    node before the anchor position has it, and the node after it is missing
    or has none. *)
Definition at_end_of_anchor (m : Model) (anchor : nat) : Prop :=
  hasAttribute m "anchorId" = true /\
  (exists b, nodeBefore (nodes m) anchor = Some b /\
             node_hasAttribute (nodes m) b "anchorId" = true) /\
  (forall a, nodeAfter (nodes m) anchor = Some a ->
             node_hasAttribute (nodes m) a "anchorId" = false).

(** ** The view element of an anchor *)

(** The view is modelled as far as [utils.js] and [anchorediting.js] use it:
    an element has a name, attributes, classes, custom properties and a
    priority, and is an attribute element or not. *)

Record ViewElement := {
  ve_attributeElement : bool;
  ve_name : string;
  ve_attributes : gmap string string;
  ve_classes : list string;
  ve_customProperties : gmap string attr_value;
  ve_priority : nat
}.

(** [!!v]. *)
Definition js_truthy (v : option attr_value) : bool :=
  match v with
  | Some (VBool b) => b
  | Some (VStr s) => negb (bool_decide (s = ""))
  | None => false
  end.

Definition createAttributeElement (name : string) (attributes : gmap string string)
    (priority : nat) : ViewElement :=
  {| ve_attributeElement := true; ve_name := name; ve_attributes := attributes;
     ve_classes := []; ve_customProperties := ∅; ve_priority := priority |}.

Definition addClass (className : string) (e : ViewElement) : ViewElement :=
  {| ve_attributeElement := ve_attributeElement e; ve_name := ve_name e;
     ve_attributes := ve_attributes e;
     ve_classes := if bool_decide (className ∈ ve_classes e) then ve_classes e
                   else ve_classes e ++ [className];
     ve_customProperties := ve_customProperties e; ve_priority := ve_priority e |}.

Definition setCustomProperty (key : string) (v : attr_value) (e : ViewElement) : ViewElement :=
  {| ve_attributeElement := ve_attributeElement e; ve_name := ve_name e;
     ve_attributes := ve_attributes e; ve_classes := ve_classes e;
     ve_customProperties := <[key := v]> (ve_customProperties e);
     ve_priority := ve_priority e |}.

Definition isAnchorElement (node : ViewElement) : bool :=
  ve_attributeElement node && js_truthy (ve_customProperties node !! "anchor").

Definition createAnchorElement (name : string) : ViewElement :=
  let anchorElement := createAttributeElement "a" {["id" := name]} 5 in
  let anchorElement := addClass "ck-anchor" anchorElement in
  setCustomProperty "anchor" (VBool true) anchorElement.

(** The upcast of [anchorediting.js]: an [a] element with an [id] attribute
    gives the model attribute [anchorId] the value of [id]. *)
Definition upcastAnchorId (viewElement : ViewElement) : option string :=
  if bool_decide (ve_name viewElement = "a") then ve_attributes viewElement !! "id"
  else None.

(** ** The highlight of the selected anchor *)

Definition HIGHLIGHT_CLASS : string := "ck-anchor_selected".

Definition hasClass (className : string) (e : ViewElement) : bool :=
  bool_decide (className ∈ ve_classes e).

Definition removeClass (className : string) (e : ViewElement) : ViewElement :=
  {| ve_attributeElement := ve_attributeElement e; ve_name := ve_name e;
     ve_attributes := ve_attributes e;
     ve_classes := List.filter (fun c => negb (bool_decide (c = className))) (ve_classes e);
     ve_customProperties := ve_customProperties e; ve_priority := ve_priority e |}.

(** The items of the view, referred to by their index, and the set
    [highlightedAnchors]. *)
Record Highlight := {
  view_items : list ViewElement;
  highlightedAnchors : list nat
}.

Definition set_add (i : nat) (s : list nat) : list nat :=
  if bool_decide (i ∈ s) then s else s ++ [i].

(** One turn of the loop of the post-fixer over the items of the view range. *)
Definition highlight_item (st : Highlight * bool) (i : nat) : Highlight * bool :=
  match view_items (fst st) !! i with
  | Some item =>
      if bool_decide (ve_name item = "a") && negb (hasClass HIGHLIGHT_CLASS item)
      then ({| view_items := <[i := addClass HIGHLIGHT_CLASS item]> (view_items (fst st));
               highlightedAnchors := set_add i (highlightedAnchors (fst st)) |}, true)
      else st
  | None => st
  end.

(** The post-fixer of [_setupAnchorHighlight]; [toViewItems] stands for
    [mapper.toViewRange( modelRange ).getItems()] and gives the indices of
    the items of the view range.  Returns the new state and [changed]. *)
Definition highlightPostFixer `{BoolStringEq} (m : Model) (toViewItems : range -> list nat)
    (st : Highlight) : option (Highlight * bool) :=
  if hasAttribute m "anchorId" then
    position ← getFirstPosition m;
    modelRange ← findAnchorRange (nodes m) position (sel_attrs m !! "anchorId");
    Some (foldl highlight_item (st, false) (toViewItems modelRange))
  else Some (st, false).

(** [removeHighlight]. *)
Definition removeHighlight (st : Highlight) : Highlight :=
  {| view_items :=
       foldl (fun v i => alter (removeClass HIGHLIGHT_CLASS) i v) (view_items st)
             (highlightedAnchors st);
     highlightedAnchors := [] |}.

(** What the loop of the post-fixer keeps: an item is either untouched or
    got the class, and it is in the set exactly in the second case. *)
Definition highlight_inv (v0 : list ViewElement) (st : Highlight) : Prop :=
  NoDup (highlightedAnchors st) /\
  forall i,
    if bool_decide (i ∈ highlightedAnchors st)
    then exists e, v0 !! i = Some e /\ hasClass HIGHLIGHT_CLASS e = false /\
                   view_items st !! i = Some (addClass HIGHLIGHT_CLASS e)
    else view_items st !! i = v0 !! i.

(** ** More sample documents *)

(** The three neighbours between two plain texts: offsets 0-3, 3-4, 4-6,
    6-7 and 7-11. *)
Definition doc_wide : list node := [Text "pre" ∅] ++ doc_ABC ++ [Text "post" ∅].

(** Only the object [C] selected: nothing selected permits the attribute. *)
Definition selected_C : Model := with_selection doc_ABC [(3, 4)] id_x.

(** A plain text with its middle selected. *)
Definition selected_plain : Model := with_selection [Text "abcd" ∅] [(1, 3)] ∅.

(** The caret inside the anchor of [doc_wide]. *)
Definition caret_in_wide : Model := with_selection doc_wide [(5, 5)] id_x.

(** A view of two anchor elements, both in the view range of every model
    range. *)
Definition view_two : list ViewElement := [createAnchorElement "x"; createAnchorElement "x"].

Definition both_items (r : range) : list nat := [0; 1].

(** ** Strings as lists of characters *)

Lemma length_list_ascii (s : string) :
  length (String.list_ascii_of_string s) = String.length s.
Proof. induction s as [|c s IH]; simpl; [done|by rewrite IH]. Qed.

Lemma list_ascii_substring_take (k : nat) (s : string) :
  String.list_ascii_of_string (String.substring 0 k s) = take k (String.list_ascii_of_string s).
Proof.
  revert k. induction s as [|c s IH]; intros [|k]; simpl; try done.
  by rewrite IH.
Qed.

Lemma list_ascii_substring_drop (k : nat) (s : string) :
  String.list_ascii_of_string (String.substring k (String.length s - k) s)
  = drop k (String.list_ascii_of_string s).
Proof.
  revert k. induction s as [|c s IH]; intros [|k]; simpl; try done.
  f_equal. specialize (IH 0). rewrite Nat.sub_0_r in IH. by rewrite IH.
Qed.

Lemma length_substring_take (k : nat) (s : string) :
  k <= String.length s -> String.length (String.substring 0 k s) = k.
Proof.
  intros H. rewrite <- length_list_ascii, list_ascii_substring_take, length_take.
  rewrite length_list_ascii. lia.
Qed.

Lemma length_substring_drop (k : nat) (s : string) :
  String.length (String.substring k (String.length s - k) s) = String.length s - k.
Proof.
  rewrite <- length_list_ascii, list_ascii_substring_drop, length_drop.
  by rewrite length_list_ascii.
Qed.

(** ** The content offset by offset *)

Lemma length_flatten_node (n : node) : length (flatten_node n) = offsetSize n.
Proof. destruct n; simpl; [|done]. by rewrite length_fmap, length_list_ascii. Qed.

Lemma flatten_cons (n : node) (ns : list node) :
  flatten (n :: ns) = flatten_node n ++ flatten ns.
Proof. done. Qed.

Lemma flatten_app (l1 l2 : list node) : flatten (l1 ++ l2) = flatten l1 ++ flatten l2.
Proof. unfold flatten. apply bind_app. Qed.

Lemma length_flatten (ns : list node) : length (flatten ns) = maxOffset ns.
Proof.
  induction ns as [|n ns IH]; [done|].
  rewrite flatten_cons, length_app, length_flatten_node, IH. done.
Qed.

Lemma flatten_splitAt (o : nat) (ns : list node) : flatten (splitAt o ns) = flatten ns.
Proof.
  revert o. induction ns as [|n ns IH]; intros o; simpl; [done|].
  destruct (o =? 0); [done|].
  destruct (offsetSize n <=? o) eqn:E.
  - by rewrite !flatten_cons, IH.
  - destruct n as [data a|name a]; [|done].
    rewrite !flatten_cons, app_assoc. f_equal. simpl.
    rewrite list_ascii_substring_take, list_ascii_substring_drop.
    by rewrite <- fmap_app, take_drop.
Qed.

Lemma nostraddle_le (o off : nat) (ns : list node) : o <= off -> nostraddle o off ns.
Proof.
  revert off. induction ns as [|n ns IH]; intros off H; simpl; [done|].
  split; [lia|]. apply IH. lia.
Qed.

Lemma nostraddle_splitAt (o off : nat) (ns : list node) :
  nostraddle (off + o) off (splitAt o ns).
Proof.
  revert o off. induction ns as [|n ns IH]; intros o off; simpl; [done|].
  destruct (o =? 0) eqn:E0.
  - apply Nat.eqb_eq in E0. apply nostraddle_le. lia.
  - apply Nat.eqb_neq in E0.
    destruct (offsetSize n <=? o) eqn:E.
    + apply Nat.leb_le in E. simpl. split; [lia|].
      replace (off + o) with (off + offsetSize n + (o - offsetSize n)) by lia.
      apply IH.
    + apply Nat.leb_gt in E. destruct n as [data a|name a]; simpl in *; [|lia].
      rewrite length_substring_take by lia. rewrite length_substring_drop.
      split; [lia|]. split; [lia|]. apply nostraddle_le. lia.
Qed.

Lemma nostraddle_splitAt_keep (o' o off : nat) (ns : list node) :
  nostraddle o' off ns -> nostraddle o' off (splitAt o ns).
Proof.
  revert o off. induction ns as [|n ns IH]; intros o off; simpl; [done|].
  intros [H1 H2].
  destruct (o =? 0) eqn:E0; [done|]. apply Nat.eqb_neq in E0.
  destruct (offsetSize n <=? o) eqn:E.
  - simpl. split; [done|]. by apply IH.
  - apply Nat.leb_gt in E. destruct n as [data a|name a]; simpl in *; [|done].
    rewrite length_substring_take by lia. rewrite length_substring_drop.
    split; [lia|]. split; [lia|].
    replace (off + o + (String.length data - o)) with (off + String.length data) by lia.
    done.
Qed.

(** ** Writing an attribute on a range *)

Lemma map_range_app f r off (l1 l2 : list cell) :
  map_range f r off (l1 ++ l2) = map_range f r off l1 ++ map_range f r (off + length l1) l2.
Proof.
  revert off. induction l1 as [|c l1 IH]; intros off; simpl.
  - by rewrite Nat.add_0_r.
  - rewrite IH. do 3 f_equal. lia.
Qed.

Lemma map_range_in f (r : range) off (l : list cell) :
  r.1 <= off -> off + length l <= r.2 -> map_range f r off l = f <$> l.
Proof.
  revert off. induction l as [|c l IH]; intros off H1 H2; simpl in *; [done|].
  rewrite IH by lia. unfold in_range.
  assert ((fst r <=? off) = true) as -> by (apply Nat.leb_le; lia).
  assert ((off <? snd r) = true) as -> by (apply Nat.ltb_lt; lia).
  done.
Qed.

Lemma map_range_out f (r : range) off (l : list cell) :
  off + length l <= r.1 \/ r.2 <= off -> map_range f r off l = l.
Proof.
  revert off. induction l as [|c l IH]; intros off H; simpl in *; [done|].
  rewrite IH by lia. unfold in_range.
  destruct H as [H|H].
  - assert ((fst r <=? off) = false) as -> by (apply Nat.leb_gt; lia). done.
  - assert ((off <? snd r) = false) as -> by (apply Nat.ltb_ge; lia).
    by rewrite andb_false_r.
Qed.

Lemma lookup_map_range f (r : range) off (l : list cell) (i : nat) :
  map_range f r off l !! i = (fun c => if in_range r (off + i) then f c else c) <$> l !! i.
Proof.
  revert off i. induction l as [|c l IH]; intros off [|i]; simpl; try done.
  - by rewrite Nat.add_0_r.
  - rewrite IH. by replace (S off + i) with (off + S i) by lia.
Qed.

Lemma flatten_node_setAttribute key value (n : node) :
  flatten_node (node_setAttribute key value n) = cell_map (set_attr key value) <$> flatten_node n.
Proof.
  destruct n as [data a|name a]; simpl; [|done].
  rewrite <- list_fmap_compose. done.
Qed.

Lemma flatten_map_items key value (r : range) (off : nat) (ns : list node) :
  nostraddle r.1 off ns -> nostraddle r.2 off ns ->
  flatten ((fun x => if inside r x then node_setAttribute key value x.2 else x.2)
             <$> items_from off ns)
  = map_range (cell_map (set_attr key value)) r off (flatten ns).
Proof.
  revert off. induction ns as [|n ns IH]; intros off; simpl; [done|].
  intros [Hs1 Hs2] [He1 He2].
  rewrite !flatten_cons, map_range_app, length_flatten_node, IH by done.
  f_equal. unfold inside. simpl.
  destruct (fst r <=? off) eqn:E1; simpl.
  - apply Nat.leb_le in E1.
    destruct (off + offsetSize n <=? snd r) eqn:E2.
    + apply Nat.leb_le in E2. rewrite flatten_node_setAttribute.
      rewrite map_range_in; [done|done|]. by rewrite length_flatten_node.
    + apply Nat.leb_gt in E2. rewrite map_range_out; [done|]. right. lia.
  - apply Nat.leb_gt in E1. rewrite map_range_out; [done|]. left.
    rewrite length_flatten_node. lia.
Qed.

Lemma flatten_setAttributeOnRange key value (r : range) (ns : list node) :
  flatten (setAttributeOnRange key value r ns)
  = map_range (cell_map (set_attr key value)) r 0 (flatten ns).
Proof.
  unfold setAttributeOnRange. rewrite flatten_map_items.
  - by rewrite !flatten_splitAt.
  - apply nostraddle_splitAt_keep. apply (nostraddle_splitAt r.1 0).
  - apply (nostraddle_splitAt r.2 0).
Qed.

Lemma lookup_setAttributeOnRange key value (r : range) (ns : list node) (o : nat) :
  flatten (setAttributeOnRange key value r ns) !! o
  = (fun c => if in_range r o then cell_map (set_attr key value) c else c) <$> flatten ns !! o.
Proof. by rewrite flatten_setAttributeOnRange, lookup_map_range. Qed.

(** ** Offsets *)

Lemma maxOffset_app (l1 l2 : list node) :
  maxOffset (l1 ++ l2) = maxOffset l1 + maxOffset l2.
Proof. induction l1 as [|n l1 IH]; simpl; [done|]. rewrite IH. lia. Qed.

Lemma startOffset_S (ns : list node) (i : nat) (n : node) :
  ns !! i = Some n -> startOffset ns (S i) = startOffset ns i + offsetSize n.
Proof.
  intros Hn. unfold startOffset.
  rewrite (take_S_r ns i n Hn), maxOffset_app. simpl. lia.
Qed.

Lemma startOffset_mono (ns : list node) (i j : nat) :
  i <= j -> startOffset ns i <= startOffset ns j.
Proof.
  intros Hij. unfold startOffset.
  replace j with (i + (j - i)) by lia.
  rewrite <- take_take_drop, maxOffset_app. lia.
Qed.

Lemma startOffset_app_length (l1 l2 : list node) :
  startOffset (l1 ++ l2) (length l1) = maxOffset l1.
Proof. unfold startOffset. by rewrite take_app_length. Qed.

(** The node found by [offsetToIndex] occupies the offset. *)
Lemma offsetToIndex_spec (ns : list node) (p : nat) :
  p < maxOffset ns ->
  exists n, ns !! offsetToIndex ns p = Some n /\
    startOffset ns (offsetToIndex ns p) <= p < startOffset ns (offsetToIndex ns p) + offsetSize n.
Proof.
  revert p. induction ns as [|n ns IH]; intros p Hp; simpl in *; [lia|].
  destruct (p <? offsetSize n) eqn:E.
  - apply Nat.ltb_lt in E. exists n. split; [done|]. unfold startOffset. simpl. lia.
  - apply Nat.ltb_ge in E.
    destruct (IH (p - offsetSize n)) as (n' & Hn' & Hb); [lia|].
    exists n'. split; [done|]. unfold startOffset in *. simpl. lia.
Qed.

(** ** The resolver *)

Section ResolverFacts.

Context {coerce : BoolStringEq}.

Lemma walk_stop fuel ns value lookBack node lastNode :
  matches ns value node = false ->
  walk fuel ns value lookBack node lastNode = Some lastNode.
Proof. intros H. destruct fuel; simpl; by rewrite H. Qed.

Lemma matches_Some_lt ns value i :
  matches ns value (Some i) = true -> i < length ns.
Proof.
  unfold matches. simpl. destruct (ns !! i) eqn:E; [|done].
  intros _. by apply (lookup_lt_Some ns i n).
Qed.

(** The loop always ends within [length ns] turns. *)
Lemma walk_total_aux fuel (ns : list node) value (lookBack : bool) i lastNode :
  i < length ns ->
  (if lookBack then i < fuel else length ns - i <= fuel) ->
  is_Some (walk fuel ns value lookBack (Some i) lastNode).
Proof.
  revert i lastNode. induction fuel as [|fuel IH]; intros i lastNode Hi Hf.
  - destruct lookBack; lia.
  - simpl. destruct (matches ns value (Some i)) eqn:Hm; [|by eexists].
    destruct lookBack; simpl.
    + destruct i as [|j]; simpl.
      * rewrite walk_stop; [by eexists|done].
      * apply IH; lia.
    + unfold nextSibling. destruct (S i <? length ns) eqn:E.
      * apply Nat.ltb_lt in E. apply IH; lia.
      * rewrite walk_stop; [by eexists|done].
Qed.

Lemma walk_total (ns : list node) value lookBack node lastNode :
  is_Some (walk (length ns) ns value lookBack node lastNode).
Proof.
  destruct (matches ns value node) eqn:Hm.
  - destruct node as [i|]; [|done].
    pose proof (matches_Some_lt _ _ _ Hm).
    apply walk_total_aux; [done|]. destruct lookBack; lia.
  - rewrite walk_stop; [by eexists|done].
Qed.

Lemma _findBound_total ns position value lookBack :
  is_Some (_findBound ns position value lookBack).
Proof.
  unfold _findBound.
  destruct (walk_total ns value lookBack (first_node ns position lookBack) None) as [l ->].
  by eexists.
Qed.

Lemma findAnchorRange_total ns position value :
  is_Some (findAnchorRange ns position value).
Proof.
  unfold findAnchorRange.
  destruct (_findBound_total ns position value true) as [s ->].
  destruct (_findBound_total ns position value false) as [e ->].
  by eexists.
Qed.

(** Walking backward through matching nodes stops at the first of them. *)
Lemma walk_back_run fuel ns value lo i lastNode :
  lo <= i -> i - lo < fuel ->
  (forall j, lo <= j <= i -> matches ns value (Some j) = true) ->
  matches ns value (previousSibling lo) = false ->
  walk fuel ns value true (Some i) lastNode = Some (Some lo).
Proof.
  revert i lastNode. induction fuel as [|fuel IH]; intros i lastNode Hlo Hf Hrun Hstop; [lia|].
  simpl. rewrite Hrun by lia.
  destruct (decide (i = lo)) as [->|Hne].
  - by rewrite walk_stop.
  - destruct i as [|j]; [lia|]. simpl. apply IH; [lia|lia| |done].
    intros k Hk. apply Hrun. lia.
Qed.

(** Walking forward through matching nodes stops at the last of them. *)
Lemma walk_forward_run fuel ns value hi i lastNode :
  i <= hi -> hi - i < fuel ->
  (forall j, i <= j <= hi -> matches ns value (Some j) = true) ->
  matches ns value (nextSibling ns hi) = false ->
  walk fuel ns value false (Some i) lastNode = Some (Some hi).
Proof.
  revert i lastNode. induction fuel as [|fuel IH]; intros i lastNode Hhi Hf Hrun Hstop; [lia|].
  simpl. rewrite Hrun by lia.
  destruct (decide (i = hi)) as [->|Hne].
  - by rewrite walk_stop.
  - assert (Hlt : S i < length ns).
    { apply (matches_Some_lt ns value). apply Hrun. lia. }
    unfold nextSibling at 1. apply Nat.ltb_lt in Hlt. rewrite Hlt.
    apply IH; [lia|lia| |done]. intros k Hk. apply Hrun. lia.
Qed.

Lemma node_matches_carries (v : string) (n : node) :
  carries v n -> node_matches (Some (VStr v)) n = true.
Proof.
  unfold carries, node_matches. intros ->. simpl. by apply bool_decide_eq_true.
Qed.

Lemma node_matches_not_carries (v : string) (n : node) :
  string_id n -> ~ carries v n -> node_matches (Some (VStr v)) n = false.
Proof.
  unfold carries, string_id, node_matches. intros Hty Hne.
  destruct (getAttribute n "anchorId") as [[b|s]|] eqn:E; simpl; [by destruct (Hty b)| |done].
  apply bool_decide_eq_false. congruence.
Qed.

Lemma matches_lookup (ns : list node) value i n :
  ns !! i = Some n -> matches ns value (Some i) = node_matches value n.
Proof. unfold matches. simpl. by intros ->. Qed.

Lemma first_node_inside (ns : list node) (p lo hi : nat) (lookBack : bool) :
  hi < length ns -> lo <= hi ->
  startOffset ns lo < p < startOffset ns (S hi) ->
  exists i, first_node ns p lookBack = Some i /\ lo <= i <= hi.
Proof.
  intros Hhi Hlohi [Hp1 Hp2].
  assert (Hmax : p < maxOffset ns).
  { pose proof (startOffset_mono ns (S hi) (length ns)) as H.
    unfold startOffset in H at 2. rewrite take_ge in H by lia. lia. }
  destruct (offsetToIndex_spec ns p Hmax) as (n & Hn & Hb1 & Hb2).
  set (i := offsetToIndex ns p) in *.
  pose proof (startOffset_S ns i n Hn) as HS.
  assert (Hi1 : lo <= i).
  { destruct (decide (lo <= i)); [done|].
    pose proof (startOffset_mono ns (S i) lo). lia. }
  assert (Hi2 : i <= hi).
  { destruct (decide (i <= hi)); [done|].
    pose proof (startOffset_mono ns (S hi) i). lia. }
  unfold first_node, nodeBefore, nodeAfter, textNode. fold i. rewrite Hn.
  destruct (startOffset ns i <? p) eqn:E.
  - apply Nat.ltb_lt in E. destruct n as [data a|name a]; simpl in *; [|lia].
    exists i. done.
  - apply Nat.ltb_ge in E. rewrite andb_false_r.
    assert (Hne : i <> lo) by (intros ->; lia).
    destruct lookBack.
    + destruct i as [|j]; [lia|]. exists j. simpl. split; [done|lia].
    + exists i. assert ((i <? length ns) = true) as -> by (apply Nat.ltb_lt; lia).
      done.
Qed.

(** No match at the first node: the bound is the position itself. *)
Lemma _findBound_no_match (ns : list node) (p : nat) value (lookBack : bool) :
  matches ns value (first_node ns p lookBack) = false ->
  _findBound ns p value lookBack = Some p.
Proof. intros H. unfold _findBound. by rewrite walk_stop. Qed.

End ResolverFacts.

(** ** The valid ranges *)

Lemma cell_item_flatten_node (n : node) (c : cell) :
  c ∈ flatten_node n -> cell_item c = schema_item n.
Proof.
  destruct n as [data a|name a]; simpl.
  - intros (ch & -> & _)%list_elem_of_fmap. done.
  - intros ->%list_elem_of_singleton. done.
Qed.

Lemma covered_app (l1 l2 : list range) (o : nat) :
  covered (l1 ++ l2) o = covered l1 o || covered l2 o.
Proof. apply existsb_app. Qed.

Lemma covered_flush (start end_ o : nat) :
  covered (if bool_decide (start = end_) then [] else [(start, end_)]) o = true
  <-> start <= o < end_.
Proof.
  case_bool_decide as H; simpl.
  - split; [done|lia].
  - unfold in_range. simpl. rewrite orb_false_r, andb_true_iff, Nat.leb_le, Nat.ltb_lt. done.
Qed.

Lemma filter_inside_past (r : range) (off : nat) (ns : list node) :
  snd r < off -> List.filter (inside r) (items_from off ns) = [].
Proof.
  revert off. induction ns as [|n ns IH]; intros off H; simpl; [done|].
  unfold inside at 1. simpl.
  assert ((off + offsetSize n <=? snd r) = false) as -> by (apply Nat.leb_gt; lia).
  rewrite andb_false_r. apply IH. lia.
Qed.

Lemma lookup_flatten_cons_l (n : node) (ns : list node) (i : nat) :
  i < offsetSize n -> flatten (n :: ns) !! i = flatten_node n !! i.
Proof. intros H. rewrite flatten_cons, lookup_app_l; [done|]. by rewrite length_flatten_node. Qed.

Lemma lookup_flatten_cons_r (n : node) (ns : list node) (i : nat) :
  offsetSize n <= i -> flatten (n :: ns) !! i = flatten ns !! (i - offsetSize n).
Proof.
  intros H. rewrite flatten_cons, lookup_app_r; rewrite length_flatten_node; done.
Qed.

Lemma validRanges_loop_spec check attribute (s e : nat) (ns : list node) (off start end_ o : nat) :
  nostraddle s off ns -> nostraddle e off ns ->
  start <= end_ ->
  (off <= s /\ start = s /\ end_ = s) \/ (s <= start /\ end_ = off) ->
  covered (validRanges_loop check attribute
             (List.filter (inside (s, e)) (items_from off ns)) start end_) o = true
  <-> (start <= o < end_) \/
      (s <= o < e /\ off <= o /\
       exists c, flatten ns !! (o - off) = Some c /\ check (cell_item c) attribute = true).
Proof.
  revert off start end_.
  induction ns as [|n ns IH]; intros off start end_ Hs He Hle Hinv.
  - simpl. rewrite covered_flush. split; [tauto|]. intros [H|(_ & _ & c & Hc & _)]; [done|done].
  - simpl in Hs, He. destruct Hs as [Hs1 Hs2], He as [He1 He2].
    cbn [items_from List.filter].
    unfold inside at 1. cbn [fst snd].
    destruct (s <=? off) eqn:E1; [apply Nat.leb_le in E1|apply Nat.leb_gt in E1]; cbn [andb].
    + destruct (off + offsetSize n <=? e) eqn:E2;
        [apply Nat.leb_le in E2|apply Nat.leb_gt in E2].
      * (* the item is inside the range *)
        assert (end_ = off) as -> by lia.
        cbn [validRanges_loop].
        destruct (check (schema_item n) attribute) eqn:Hc.
        -- rewrite IH; [|done|done|lia|right; lia].
           split.
           ++ intros [H|(H1 & H2 & c & Hc1 & Hc2)].
              ** destruct (decide (o < off)); [left; lia|right].
                 split; [lia|]. split; [lia|].
                 destruct (lookup_lt_is_Some_2 (flatten_node n) (o - off)) as [c Hcl];
                   [rewrite length_flatten_node; lia|].
                 exists c. rewrite lookup_flatten_cons_l by lia. split; [done|].
                 rewrite (cell_item_flatten_node n c); [done|].
                 by eapply list_elem_of_lookup_2.
              ** right. split; [done|]. split; [lia|]. exists c.
                 rewrite lookup_flatten_cons_r by lia.
                 replace (o - off - offsetSize n) with (o - (off + offsetSize n)) by lia.
                 done.
           ++ intros [H|(H1 & H2 & c & Hc1 & Hc2)]; [left; lia|].
              destruct (decide (o < off + offsetSize n)); [left; lia|right].
              split; [done|]. split; [lia|]. exists c.
              rewrite lookup_flatten_cons_r in Hc1 by lia.
              replace (o - off - offsetSize n) with (o - (off + offsetSize n)) in Hc1 by lia.
              done.
        -- rewrite covered_app, orb_true_iff, covered_flush.
           rewrite IH; [|done|done|lia|right; lia].
           split.
           ++ intros [H|[H|(H1 & H2 & c & Hc1 & Hc2)]]; [by left|lia|].
              right. split; [done|]. split; [lia|]. exists c.
              rewrite lookup_flatten_cons_r by lia.
              replace (o - off - offsetSize n) with (o - (off + offsetSize n)) by lia.
              done.
           ++ intros [H|(H1 & H2 & c & Hc1 & Hc2)]; [by left|].
              destruct (decide (o < off + offsetSize n)).
              ** rewrite lookup_flatten_cons_l in Hc1 by lia.
                 rewrite (cell_item_flatten_node n c) in Hc2; [congruence|].
                 by eapply list_elem_of_lookup_2.
              ** right. right. split; [done|]. split; [lia|]. exists c.
                 rewrite lookup_flatten_cons_r in Hc1 by lia.
                 replace (o - off - offsetSize n) with (o - (off + offsetSize n)) in Hc1 by lia.
                 done.
      * (* the item ends after the range: no later item is inside *)
        rewrite (filter_inside_past (s, e)) by (simpl; lia).
        cbn [validRanges_loop]. rewrite covered_flush.
        split; [tauto|]. intros [H|(H1 & H2 & _)]; [done|lia].
    + (* the item starts before the range *)
      rewrite IH; [|done|done|done|left; lia].
      split.
      * intros [H|(H1 & H2 & c & Hc1 & Hc2)]; [by left|right].
        split; [done|]. split; [lia|]. exists c.
        rewrite lookup_flatten_cons_r by lia.
        replace (o - off - offsetSize n) with (o - (off + offsetSize n)) by lia.
        done.
      * intros [H|(H1 & H2 & c & Hc1 & Hc2)]; [by left|right].
        split; [done|]. split; [lia|]. exists c.
        rewrite lookup_flatten_cons_r in Hc1 by lia.
        replace (o - off - offsetSize n) with (o - (off + offsetSize n)) in Hc1 by lia.
        done.
Qed.

Lemma covered_validRanges_range (m : Model) (r : range) attribute (o : nat) :
  covered (validRanges_loop (schema_checkAttribute m) attribute (getItems (nodes m) r)
             (fst r) (fst r)) o
  = in_range r o && permitted m attribute o.
Proof.
  apply eq_true_iff_eq. unfold getItems. destruct r as [s e]. cbn [fst snd].
  rewrite validRanges_loop_spec.
  - rewrite !flatten_splitAt, andb_true_iff. unfold in_range, permitted. cbn [fst snd].
    rewrite andb_true_iff, Nat.leb_le, Nat.ltb_lt, Nat.sub_0_r.
    split.
    + intros [H|(H1 & _ & c & -> & Hc)]; [lia|]. split; [lia|done].
    + intros [H1 H2]. right. split; [lia|]. split; [lia|].
      destruct (flatten (nodes m) !! o) as [c|]; [|done]. by exists c.
  - apply nostraddle_splitAt_keep. apply (nostraddle_splitAt s 0).
  - apply (nostraddle_splitAt e 0).
  - done.
  - left. lia.
Qed.

Lemma covered_getValidRanges (m : Model) (rs : list range) attribute (o : nat) :
  covered (getValidRanges m rs attribute) o = covered rs o && permitted m attribute o.
Proof.
  unfold getValidRanges. induction rs as [|r rs IH]; [done|].
  rewrite bind_cons, covered_app, IH, covered_validRanges_range. simpl.
  by destruct (in_range r o), (covered rs o), (permitted m attribute o).
Qed.

(** ** Sequences of writes *)

Lemma lookup_fold_set_attr (keys : list string) value (a : attrs) (k : string) :
  foldl (fun a item => set_attr item value a) a keys !! k
  = if bool_decide (k ∈ keys) then value else a !! k.
Proof.
  revert a. induction keys as [|x keys IH]; intros a; simpl; [done|].
  rewrite IH. case_bool_decide as H1; case_bool_decide as H2; try done.
  - rewrite elem_of_cons in H2. tauto.
  - rewrite elem_of_cons in H2. destruct H2 as [->|H2]; [|done].
    destruct value; simpl; [apply lookup_insert_eq|apply lookup_delete_eq].
  - rewrite elem_of_cons in H2.
    assert (x <> k) by (intros ->; tauto).
    destruct value; simpl; [by apply lookup_insert_ne|by apply lookup_delete_ne].
Qed.

Lemma lookup_length_eq {A B} (f : nat -> A -> B) (l : list A) (l' : list B) :
  (forall o, l' !! o = f o <$> l !! o) -> length l' = length l.
Proof.
  intros H. apply Nat.le_antisymm; apply Nat.nlt_ge; intros Hlt.
  - destruct (lookup_lt_is_Some_2 l' (length l) Hlt) as [x Hx].
    rewrite H, (lookup_ge_None_2 l (length l)) in Hx; done.
  - destruct (lookup_lt_is_Some_2 l (length l') Hlt) as [x Hx].
    specialize (H (length l')). rewrite Hx, (lookup_ge_None_2 l' (length l')) in H; done.
Qed.

Lemma rewritten_intro (P : nat -> bool) (R : attrs -> attrs -> Prop) (F : attrs -> attrs)
    (cs cs' : list cell) :
  (forall a, R a (F a)) ->
  (forall o, cs' !! o = (fun c => if P o then cell_map F c else c) <$> cs !! o) ->
  rewritten P R cs cs'.
Proof.
  intros HR H. split.
  - by apply (lookup_length_eq (fun o c => if P o then cell_map F c else c)).
  - intros o c Hc. rewrite H, Hc. simpl. destruct (P o) eqn:E.
    + eexists. split; [done|]. split; [done|]. apply HR.
    + eexists. split; [done|]. done.
Qed.

Lemma lookup_fold_writes value (r : range) (keys : list string) (m : Model) (o : nat) :
  flatten (nodes (foldl (fun m item => set_nodes (setAttributeOnRange item value r (nodes m)) m)
                        m keys)) !! o
  = (fun c => if in_range r o
              then cell_map (fun a => foldl (fun a item => set_attr item value a) a keys) c
              else c) <$> flatten (nodes m) !! o.
Proof.
  revert m. induction keys as [|k keys IH]; intros m; simpl.
  - destruct (flatten (nodes m) !! o) as [[u a]|]; [|done]. simpl. by destruct (in_range r o).
  - rewrite IH. simpl. rewrite lookup_setAttributeOnRange.
    destruct (flatten (nodes m) !! o) as [[u a]|]; [|done]. simpl.
    by destruct (in_range r o).
Qed.

Lemma lookup_anchor_write id t f (a : attrs) (k : string) :
  anchor_write id t f a !! k
  = if bool_decide (k ∈ f) then None
    else if bool_decide (k ∈ t) then Some (VBool true)
    else if bool_decide (k = "anchorId") then Some (VStr id) else a !! k.
Proof.
  unfold anchor_write. rewrite !lookup_fold_set_attr.
  repeat case_bool_decide; try done.
  - subst. apply lookup_insert_eq.
  - by apply lookup_insert_ne.
Qed.

Lemma anchor_write_idemp id t f (a : attrs) :
  anchor_write id t f (anchor_write id t f a) = anchor_write id t f a.
Proof.
  apply map_eq. intros k. rewrite !lookup_anchor_write.
  by repeat case_bool_decide.
Qed.

Lemma lookup_anchor_op id t f (r : range) (m : Model) (o : nat) :
  flatten (nodes (anchor_op id t f r m)) !! o
  = (fun c => if in_range r o then cell_map (anchor_write id t f) c else c)
      <$> flatten (nodes m) !! o.
Proof.
  unfold anchor_op, applyDecorators, writer_setAttribute, writer_removeAttribute.
  rewrite !lookup_fold_writes. simpl. rewrite lookup_setAttributeOnRange.
  destruct (flatten (nodes m) !! o) as [[u a]|]; [|done]. simpl.
  by destruct (in_range r o).
Qed.

Lemma lookup_fold_ranges (op : range -> Model -> Model) (F : attrs -> attrs) :
  (forall r m o, flatten (nodes (op r m)) !! o
                 = (fun c => if in_range r o then cell_map F c else c) <$> flatten (nodes m) !! o) ->
  (forall a, F (F a) = F a) ->
  forall (rs : list range) (m : Model) (o : nat),
    flatten (nodes (foldl (fun m r => op r m) m rs)) !! o
    = (fun c => if covered rs o then cell_map F c else c) <$> flatten (nodes m) !! o.
Proof.
  intros Hop Hid rs. induction rs as [|r rs IH]; intros m o; simpl.
  - by destruct (flatten (nodes m) !! o).
  - rewrite IH, Hop.
    destruct (flatten (nodes m) !! o) as [[u a]|]; [|done]. simpl.
    destruct (in_range r o), (covered rs o); simpl; try done.
    unfold cell_map. simpl. by rewrite Hid.
Qed.

(** ** The decorator flags *)

Lemma js_get_Some_keys (o : js_object) (k : string) (b : bool) :
  js_get o k = Some b -> k ∈ js_keys o.
Proof.
  unfold js_get, js_keys. induction o as [|[k' b'] o IH]; simpl; [done|].
  case_bool_decide as H; simpl in *.
  - intros _. subst. apply list_elem_of_here.
  - intros H'. apply list_elem_of_further. by apply IH.
Qed.

Lemma js_get_keys_Some (o : js_object) (k : string) :
  k ∈ js_keys o -> is_Some (js_get o k).
Proof.
  unfold js_get, js_keys. induction o as [|[k' b'] o IH]; simpl.
  - by intros ?%elem_of_nil.
  - case_bool_decide as H; simpl in *; [by eexists|].
    intros [->|H']%elem_of_cons; [done|]. by apply IH.
Qed.

Lemma splitDecorators_fold (o : js_object) (ks t0 f0 : list string) (k : string) :
  let r := foldl (fun acc name =>
                    if truthy (js_get o name)
                    then (acc.1 ++ [name], acc.2)
                    else (acc.1, acc.2 ++ [name])) (t0, f0) ks in
  (k ∈ r.1 <-> k ∈ t0 \/ (k ∈ ks /\ truthy (js_get o k) = true)) /\
  (k ∈ r.2 <-> k ∈ f0 \/ (k ∈ ks /\ truthy (js_get o k) = false)).
Proof.
  revert t0 f0. induction ks as [|x ks IH]; intros t0 f0; simpl.
  - split; (split; [by left|]); intros [H|[H _]]; try done; by apply elem_of_nil in H.
  - destruct (truthy (js_get o x)) eqn:E; simpl.
    + destruct (IH (t0 ++ [x]) f0) as [IH1 IH2]. simpl in IH1, IH2.
      rewrite IH1, IH2, elem_of_app, list_elem_of_singleton, elem_of_cons.
      split; split.
      * intros [[H| ->]|[H H']]; [by left|right; split; [by left|done]|right; split; [by right|done]].
      * intros [H|[[->|H] H']]; [left; by left|left; by right|right; done].
      * intros [H|[H H']]; [by left|right; split; [by right|done]].
      * intros [H|[[->|H] H']]; [by left|congruence|right; done].
    + destruct (IH t0 (f0 ++ [x])) as [IH1 IH2]. simpl in IH1, IH2.
      rewrite IH1, IH2, elem_of_app, list_elem_of_singleton, elem_of_cons.
      split; split.
      * intros [H|[H H']]; [by left|right; split; [by right|done]].
      * intros [H|[[->|H] H']]; [by left|congruence|right; done].
      * intros [[H| ->]|[H H']]; [by left|right; split; [by left|done]|right; split; [by right|done]].
      * intros [H|[[->|H] H']]; [left; by left|left; by right|right; done].
Qed.

Lemma splitDecorators_truthy (o : js_object) (k : string) :
  k ∈ (splitDecorators o).1 <-> js_get o k = Some true.
Proof.
  destruct (splitDecorators_fold o (js_keys o) [] [] k) as [H _]. simpl in H.
  unfold splitDecorators. rewrite H. split.
  - intros [H'|[H1 H2]]; [by apply elem_of_nil in H'|].
    destruct (js_get o k) as [[|]|]; done.
  - intros H'. right. split; [by eapply js_get_Some_keys|]. by rewrite H'.
Qed.

Lemma splitDecorators_falsy (o : js_object) (k : string) :
  k ∈ (splitDecorators o).2 <-> js_get o k = Some false.
Proof.
  destruct (splitDecorators_fold o (js_keys o) [] [] k) as [_ H]. simpl in H.
  unfold splitDecorators. rewrite H. split.
  - intros [H'|[H1 H2]]; [by apply elem_of_nil in H'|].
    destruct (js_get_keys_Some o k H1) as [b Hb]. rewrite Hb in *. by destruct b.
  - intros H'. right. split; [by eapply js_get_Some_keys|]. by rewrite H'.
Qed.

Lemma anchor_write_attrs (id : string) (flags : js_object) (a : attrs) :
  js_get flags "anchorId" = None ->
  anchor_attrs id flags a
    (anchor_write id (splitDecorators flags).1 (splitDecorators flags).2 a).
Proof.
  intros Hid. unfold anchor_attrs. repeat split.
  - rewrite lookup_anchor_write.
    rewrite bool_decide_eq_false_2 by (rewrite splitDecorators_falsy; congruence).
    rewrite bool_decide_eq_false_2 by (rewrite splitDecorators_truthy; congruence).
    done.
  - intros name H. rewrite lookup_anchor_write.
    rewrite bool_decide_eq_false_2 by (rewrite splitDecorators_falsy; congruence).
    rewrite bool_decide_eq_true_2 by (by rewrite splitDecorators_truthy).
    done.
  - intros name H. rewrite lookup_anchor_write.
    rewrite bool_decide_eq_true_2 by (by rewrite splitDecorators_falsy).
    done.
  - intros key Hne H. rewrite lookup_anchor_write.
    rewrite bool_decide_eq_false_2 by (rewrite splitDecorators_falsy; congruence).
    rewrite bool_decide_eq_false_2 by (rewrite splitDecorators_truthy; congruence).
    by rewrite bool_decide_eq_false_2.
Qed.

(** ** The selection and the insertion *)

Lemma isCollapsed_inv (m : Model) :
  isCollapsed m = true -> exists p, sel_ranges m = [(p, p)] /\ getFirstPosition m = Some p.
Proof.
  unfold isCollapsed, getFirstPosition, getFirstRange.
  destruct (sel_ranges m) as [|[s e] [|r rs]]; try done.
  simpl. intros ->%bool_decide_eq_true. by exists e.
Qed.

Lemma offsetToIndex_le (ns : list node) (p : nat) : offsetToIndex ns p <= length ns.
Proof.
  revert p. induction ns as [|n ns IH]; intros p; simpl; [done|].
  destruct (p <? offsetSize n); [lia|]. specialize (IH (p - offsetSize n)). lia.
Qed.

Lemma startOffset_boundary (ns : list node) (off p : nat) :
  nostraddle (off + p) off ns -> p <= maxOffset ns ->
  startOffset ns (offsetToIndex ns p) = p.
Proof.
  unfold startOffset. revert off p.
  induction ns as [|n ns IH]; intros off p; simpl; [lia|].
  intros [H1 H2] Hp.
  destruct (p <? offsetSize n) eqn:E;
    [apply Nat.ltb_lt in E|apply Nat.ltb_ge in E]; simpl.
  - lia.
  - rewrite (IH (off + offsetSize n) (p - offsetSize n)); [lia| |lia].
    by replace (off + offsetSize n + (p - offsetSize n)) with (off + p) by lia.
Qed.

Lemma insertion_point (p : nat) (ns : list node) :
  p <= maxOffset ns ->
  maxOffset (take (offsetToIndex (splitAt p ns) p) (splitAt p ns)) = p.
Proof.
  intros Hp. apply (startOffset_boundary (splitAt p ns) 0 p).
  - apply (nostraddle_splitAt p 0).
  - by rewrite <- length_flatten, flatten_splitAt, length_flatten.
Qed.



Lemma lookup_fold_insert_true (t : list string) (a : attrs) (k : string) :
  foldl (fun a item => <[item := VBool true]> a) a t !! k
  = if bool_decide (k ∈ t) then Some (VBool true) else a !! k.
Proof. apply (lookup_fold_set_attr t (Some (VBool true))). Qed.

(** ** The anchor command on a span and on selected ranges *)

Section AnchorCommandFacts.

Context {coerce : BoolStringEq}.

Lemma execute_in_span (m : Model) (id : string) (flags : js_object) :
  isCollapsed m = true -> hasAttribute m "anchorId" = true ->
  exists p span,
    getFirstPosition m = Some p /\
    findAnchorRange (nodes m) p (sel_attrs m !! "anchorId") = Some span /\
    AnchorCommand_execute m id flags
    = Some (writer_setSelection span
              (anchor_op id (splitDecorators flags).1 (splitDecorators flags).2 span m)).
Proof.
  intros Hc Ha. destruct (isCollapsed_inv m Hc) as (p & Hr & Hp).
  destruct (findAnchorRange_total (nodes m) p (sel_attrs m !! "anchorId"))
    as [span Hspan].
  exists p, span. split; [done|]. split; [done|].
  unfold AnchorCommand_execute.
  destruct (splitDecorators flags) as [t f]. rewrite Hc, Hp. cbn [mbind option_bind].
  rewrite Ha, Hspan. done.
Qed.


Lemma execute_non_collapsed (m : Model) (id : string) (flags : js_object) :
  isCollapsed m = false ->
  AnchorCommand_execute m id flags
  = Some (foldl (fun m r => anchor_op id (splitDecorators flags).1 (splitDecorators flags).2 r m)
                m (getValidRanges m (sel_ranges m) "anchorId")).
Proof.
  intros Hc. unfold AnchorCommand_execute.
  destruct (splitDecorators flags) as [t f]. by rewrite Hc.
Qed.

Lemma fold_keeps_selection (op : range -> Model -> Model) (rs : list range) (m : Model) :
  (forall r m, sel_ranges (op r m) = sel_ranges m /\ sel_attrs (op r m) = sel_attrs m) ->
  sel_ranges (foldl (fun m r => op r m) m rs) = sel_ranges m /\
  sel_attrs (foldl (fun m r => op r m) m rs) = sel_attrs m.
Proof.
  intros Hop. revert m. induction rs as [|r rs IH]; intros m; simpl; [done|].
  destruct (IH (op r m)) as [-> ->]. apply Hop.
Qed.

Lemma fold_writes_keeps_selection value (r : range) (keys : list string) (m : Model) :
  let m' := foldl (fun m item => set_nodes (setAttributeOnRange item value r (nodes m)) m) m keys in
  sel_ranges m' = sel_ranges m /\ sel_attrs m' = sel_attrs m.
Proof.
  revert m. induction keys as [|k keys IH]; intros m; simpl; [done|].
  destruct (IH (set_nodes (setAttributeOnRange k value r (nodes m)) m)) as [-> ->]. done.
Qed.

Lemma anchor_op_keeps_selection id t f (r : range) (m : Model) :
  sel_ranges (anchor_op id t f r m) = sel_ranges m /\
  sel_attrs (anchor_op id t f r m) = sel_attrs m.
Proof.
  unfold anchor_op, applyDecorators, writer_setAttribute, writer_removeAttribute.
  destruct (fold_writes_keeps_selection None r f
    (foldl (fun m item => set_nodes (setAttributeOnRange item (Some (VBool true)) r (nodes m)) m)
       (set_nodes (setAttributeOnRange "anchorId" (Some (VStr id)) r (nodes m)) m) t)) as [-> ->].
  destruct (fold_writes_keeps_selection (Some (VBool true)) r t
       (set_nodes (setAttributeOnRange "anchorId" (Some (VStr id)) r (nodes m)) m)) as [-> ->].
  done.
Qed.

End AnchorCommandFacts.

(** ** Insertion and unanchor *)

Lemma no_empty_node_app (l1 l2 : list node) :
  no_empty_node (l1 ++ l2) <-> no_empty_node l1 /\ no_empty_node l2.
Proof. apply Forall_app. Qed.

Lemma no_empty_node_splitAt (o : nat) (ns : list node) :
  no_empty_node ns -> no_empty_node (splitAt o ns).
Proof.
  unfold no_empty_node. revert o. induction ns as [|n ns IH]; intros o; simpl; [done|].
  intros [Hn Hns]%Forall_cons.
  destruct (o =? 0) eqn:E0; [by apply Forall_cons|]. apply Nat.eqb_neq in E0.
  destruct (offsetSize n <=? o) eqn:E.
  - apply Forall_cons. split; [done|]. by apply IH.
  - apply Nat.leb_gt in E. destruct n as [data a|name a]; [|by apply Forall_cons].
    simpl in *. repeat (apply Forall_cons; split); [| |done]; simpl.
    + rewrite length_substring_take; lia.
    + rewrite length_substring_drop. lia.
Qed.

Lemma cell_attrs_flatten_node (n : node) (c : cell) :
  c ∈ flatten_node n -> c.2 = node_attrs n.
Proof.
  destruct n as [data a|name a]; simpl.
  - by intros (ch & -> & _)%list_elem_of_fmap.
  - by intros ->%list_elem_of_singleton.
Qed.

(** The cell before the end of a list is a cell of its last node, the cell
    after the end is a cell of the node that follows. *)
Lemma last_cell (l1 l2 : list node) (n : node) :
  no_empty_node l1 -> last l1 = Some n ->
  0 < maxOffset l1 /\
  exists c, flatten (l1 ++ l2) !! (maxOffset l1 - 1) = Some c /\ c ∈ flatten_node n.
Proof.
  intros Hne Hlast. apply last_Some in Hlast as [l ->].
  apply no_empty_node_app in Hne as [_ Hn]. unfold no_empty_node in Hn.
  rewrite Forall_singleton in Hn.
  assert (Hm : maxOffset (l ++ [n]) = maxOffset l + offsetSize n).
  { rewrite maxOffset_app. simpl. lia. }
  rewrite Hm. split; [lia|].
  destruct (lookup_lt_is_Some_2 (flatten_node n) (offsetSize n - 1)) as [c Hc].
  { rewrite length_flatten_node. lia. }
  exists c. split; [|by eapply list_elem_of_lookup_2].
  rewrite <- app_assoc, flatten_app, lookup_app_r by (rewrite length_flatten; lia).
  rewrite length_flatten. cbn [app]. rewrite flatten_cons.
  rewrite lookup_app_l by (rewrite length_flatten_node; lia).
  rewrite <- Hc. f_equal. lia.
Qed.

Lemma head_cell (l1 l2 : list node) (n : node) :
  no_empty_node l2 -> head l2 = Some n ->
  exists c, flatten (l1 ++ l2) !! maxOffset l1 = Some c /\ c ∈ flatten_node n.
Proof.
  intros Hne Hhead. destruct l2 as [|n' l2]; [done|]. injection Hhead as ->.
  unfold no_empty_node in Hne. apply Forall_cons in Hne as [Hn _]. cbv beta in Hn.
  destruct (lookup_lt_is_Some_2 (flatten_node n) 0) as [c Hc].
  { by rewrite length_flatten_node. }
  exists c. split; [|by eapply list_elem_of_lookup_2].
  rewrite flatten_app, lookup_app_r by (rewrite length_flatten; lia).
  rewrite length_flatten, Nat.sub_diag, flatten_cons.
  by rewrite lookup_app_l by (by rewrite length_flatten_node).
Qed.


(** The neighbours of the node at the end of [l1]. *)
Lemma merged_middle (l1 l2 : list node) (n : node) :
  merged (l1 ++ n :: l2) (length l1)
  = match head l2 with
    | Some next => mergeable n next
    | None => false
    end
    || match last l1 with
       | Some previous => mergeable previous n
       | None => false
       end.
Proof.
  unfold merged. rewrite list_lookup_middle by done. f_equal.
  - rewrite lookup_app_r by lia.
    replace (S (length l1) - length l1) with 1 by lia. by destruct l2.
  - destruct l1 as [|x l1 _] using rev_ind; [done|].
    rewrite length_app. cbn [length]. rewrite Nat.add_1_r.
    rewrite <- app_assoc. cbn [app]. rewrite list_lookup_middle by done.
    by rewrite last_snoc.
Qed.


(** A text node between neighbours of which one is a text node with its
    attributes is merged. *)
Lemma merged_by_neighbour (l1 l2 : list node) (data d : string) (a : attrs) :
  last l1 = Some (Text d a) \/ head l2 = Some (Text d a) ->
  merged (l1 ++ Text data a :: l2) (length l1) = true.
Proof.
  intros H. rewrite merged_middle. apply orb_true_iff.
  destruct H as [-> | ->]; [right|left]; cbn [mergeable]; by apply bool_decide_eq_true_2.
Qed.

Lemma removeDisallowedAttribute_detached check (i : nat) (ns : list node)
    (keys : list string) :
  foldl (removeDisallowedAttribute check i) (ns, false) keys = (ns, false).
Proof. induction keys as [|k keys IH]; [done|]. apply IH. Qed.



Lemma insertion_lists (p : nat) (ns : list node) :
  let ns' := splitAt p ns in
  let i := offsetToIndex ns' p in
  length (take i ns') = i /\ take i ns' ++ drop i ns' = ns' /\
  (p <= maxOffset ns -> maxOffset (take i ns') = p).
Proof.
  intros ns' i.
  assert (Hi : i <= length ns') by apply offsetToIndex_le.
  split; [by rewrite length_take, Nat.min_l|]. split; [apply take_drop|].
  by apply insertion_point.
Qed.




(** What [insertContent] returns when the text next to the position has the
    attributes of the node: the node is merged. *)
Lemma insertContent_merged check (data : string) (a : attrs) (p : nat) (ns : list node)
    (ch : ascii) :
  no_empty_node ns -> p <= maxOffset ns ->
  (0 < p /\ flatten ns !! (p - 1) = Some (UChar ch, a)) \/ flatten ns !! p = Some (UChar ch, a) ->
  snd (insertContent check (Text data a) p ns) = None.
Proof.
  intros Hne Hp Hcell.
  unfold insertContent. cbv zeta.
  destruct (insertion_lists p ns) as (Hlen & Happ & Hmax).
  specialize (Hmax Hp).
  set (l1 := take _ _) in *. set (l2 := drop _ _) in *.
  rewrite <- Hlen.
  assert (Hne' : no_empty_node (l1 ++ l2)) by (rewrite Happ; by apply no_empty_node_splitAt).
  apply no_empty_node_app in Hne' as [Hne1 Hne2].
  assert (Hflat : flatten (l1 ++ l2) = flatten ns) by (rewrite Happ; apply flatten_splitAt).
  assert (Hlen' : length (flatten (l1 ++ l2)) = maxOffset l1 + maxOffset l2).
  { by rewrite length_flatten, maxOffset_app. }
  assert (Htext : forall n, (UChar ch, a) ∈ flatten_node n -> exists d, n = Text d a).
  { intros [d x|name x]; cbn [flatten_node].
    - intros (c & [= _ ->] & _)%list_elem_of_fmap. by exists d.
    - by intros [=]%list_elem_of_singleton. }
  assert (Hnb : exists d, last l1 = Some (Text d a) \/ head l2 = Some (Text d a)).
  { destruct Hcell as [[Hpos Hc]|Hc].
    - destruct (last l1) as [n|] eqn:El.
      + destruct (last_cell l1 l2 n Hne1 El) as (_ & c & Hc' & Hin).
        rewrite Hflat, Hmax, Hc in Hc'. injection Hc' as <-.
        destruct (Htext n Hin) as [d ->]. exists d. by left.
      + apply last_None in El. rewrite El in Hmax. simpl in Hmax. lia.
    - destruct (head l2) as [n|] eqn:Eh.
      + destruct (head_cell l1 l2 n Hne2 Eh) as (c & Hc' & Hin).
        rewrite Hflat, Hmax, Hc in Hc'. injection Hc' as <-.
        destruct (Htext n Hin) as [d ->]. exists d. by right.
      + apply head_None in Eh. apply lookup_lt_Some in Hc.
        rewrite <- Hflat, Hlen', Eh in Hc. simpl in Hc. lia. }
  destruct Hnb as [d Hnb].
  rewrite (merged_by_neighbour l1 l2 data d a Hnb). cbn [negb].
  by rewrite removeDisallowedAttribute_detached.
Qed.

Lemma lookup_unanchor_write (ids : list string) (a : attrs) (k : string) :
  unanchor_write ids a !! k
  = if bool_decide (k ∈ ids) then None
    else if bool_decide (k = "anchorId") then None else a !! k.
Proof.
  unfold unanchor_write. rewrite lookup_fold_set_attr.
  repeat case_bool_decide; try done.
  - subst. apply lookup_delete_eq.
  - by apply lookup_delete_ne.
Qed.

Lemma unanchor_write_idemp (ids : list string) (a : attrs) :
  unanchor_write ids (unanchor_write ids a) = unanchor_write ids a.
Proof.
  apply map_eq. intros k. rewrite !lookup_unanchor_write. by repeat case_bool_decide.
Qed.


Lemma lookup_unanchor_op (ids : list string) (r : range) (m : Model) (o : nat) :
  flatten (nodes (unanchor_op ids r m)) !! o
  = (fun c => if in_range r o then cell_map (unanchor_write ids) c else c)
      <$> flatten (nodes m) !! o.
Proof.
  unfold unanchor_op, writer_removeAttribute.
  rewrite lookup_fold_writes. simpl. rewrite lookup_setAttributeOnRange.
  destruct (flatten (nodes m) !! o) as [[u a]|]; [|done]. simpl.
  by destruct (in_range r o).
Qed.

Lemma unanchor_op_keeps_selection (ids : list string) (r : range) (m : Model) :
  sel_ranges (unanchor_op ids r m) = sel_ranges m /\
  sel_attrs (unanchor_op ids r m) = sel_attrs m.
Proof.
  unfold unanchor_op, writer_removeAttribute.
  destruct (fold_writes_keeps_selection None r ids
              (set_nodes (setAttributeOnRange "anchorId" None r (nodes m)) m)) as [-> ->].
  done.
Qed.

Section InsertionAndUnanchorFacts.

Context {coerce : BoolStringEq}.

Lemma execute_not_in_span (m : Model) (id : string) (flags : js_object) :
  isCollapsed m = true -> hasAttribute m "anchorId" = false ->
  exists p, getFirstPosition m = Some p /\
    AnchorCommand_execute m id flags
    = if negb (bool_decide (id = "")) then
        let a0 := foldl (fun a item => <[item := VBool true]> a)
                    (<["anchorId" := VStr id]> (sel_attrs m)) (splitDecorators flags).1 in
        let '(ns, inserted) :=
          insertContent (schema_checkAttribute m) (Text id a0) p (nodes m) in
        i ← inserted;
        Some (writer_setSelection (createRangeOn ns i) (set_nodes ns m))
      else Some m.
Proof.
  intros Hc Ha. destruct (isCollapsed_inv m Hc) as (p & Hr & Hp).
  exists p. split; [done|].
  unfold AnchorCommand_execute.
  destruct (splitDecorators flags) as [t f]. rewrite Hc, Hp. cbn [mbind option_bind].
  by rewrite Ha.
Qed.

Lemma execute_empty_id (m : Model) (flags : js_object) :
  isCollapsed m = true -> hasAttribute m "anchorId" = false ->
  AnchorCommand_execute m "" flags = Some m.
Proof.
  intros Hc Ha. destruct (execute_not_in_span m "" flags Hc Ha) as (p & _ & ->). done.
Qed.



(** The insertion path next to a text that has the attributes the command
    gives the new node: the node is merged and the command does not return. *)
Lemma execute_insert_merged (m : Model) (id : string) (flags : js_object) (p : nat)
    (ch : ascii) :
  isCollapsed m = true -> getFirstPosition m = Some p -> p <= maxOffset (nodes m) ->
  hasAttribute m "anchorId" = false -> id <> "" ->
  no_empty_node (nodes m) ->
  let a0 := foldl (fun a item => <[item := VBool true]> a)
              (<["anchorId" := VStr id]> (sel_attrs m)) (splitDecorators flags).1 in
  (0 < p /\ flatten (nodes m) !! (p - 1) = Some (UChar ch, a0)) \/
  flatten (nodes m) !! p = Some (UChar ch, a0) ->
  AnchorCommand_execute m id flags = None.
Proof.
  intros Hc Hp Hvalid Ha Hid Hne a0 Hcell.
  destruct (execute_not_in_span m id flags Hc Ha) as (p' & Hp' & Hex).
  assert (p' = p) as -> by congruence.
  rewrite bool_decide_eq_false_2 in Hex by done. cbn [negb] in Hex.
  fold a0 in Hex. cbv zeta in Hex.
  pose proof (insertContent_merged (schema_checkAttribute m) id a0 p (nodes m) ch
                Hne Hvalid Hcell) as Hm.
  destruct (insertContent _ _ _ _) as [ns inserted]. cbn [snd] in Hm. subst inserted.
  done.
Qed.

Lemma unanchor_execute_targets (editor : Editor) (targets : list range) :
  (if isCollapsed (model editor) then
     exists p span, getFirstPosition (model editor) = Some p /\
       findAnchorRange (nodes (model editor)) p (sel_attrs (model editor) !! "anchorId")
       = Some span /\ targets = [span]
   else targets = sel_ranges (model editor)) ->
  UnanchorCommand_execute editor
  = Some {| model := foldl (fun m r => unanchor_op (decorator_ids editor) r m)
                       (model editor) targets;
            commands_anchor := commands_anchor editor |}.
Proof.
  intros Ht. unfold UnanchorCommand_execute.
  assert (Hop : forall m r,
    (let m1 := writer_removeAttribute "anchorId" r m in
     match commands_anchor editor with
     | Some c => foldl (fun m manualDecorator =>
                          writer_removeAttribute (md_id manualDecorator) r m)
                   m1 (manualDecorators c)
     | None => m1
     end) = unanchor_op (decorator_ids editor) r m).
  { intros m r. unfold unanchor_op, decorator_ids.
    destruct (commands_anchor editor) as [c|]; [|done].
    cbv zeta. by rewrite foldl_fmap. }
  destruct (isCollapsed (model editor)).
  - destruct Ht as (p & span & -> & Hspan & ->). cbn [mbind option_bind].
    rewrite Hspan. cbn [mbind option_bind foldl]. by rewrite Hop.
  - subst targets. cbn [mbind option_bind]. do 2 f_equal.
    generalize (model editor) at 1 3. generalize (sel_ranges (model editor)).
    intros rs. induction rs as [|r rs IH]; intros m; [done|].
    cbn [foldl]. rewrite <- IH. by rewrite <- Hop.
Qed.

End InsertionAndUnanchorFacts.

Lemma covered_singleton (r : range) (o : nat) : covered [r] o = in_range r o.
Proof. unfold covered. simpl. apply orb_false_r. Qed.


(** * The properties of the specification *)

Section Properties.

Context {coerce : BoolStringEq}.

(** C1.  For a position [p] strictly inside a maximal run [run] of
    neighbouring nodes that all carry the identifier [v], whichever node of
    the run [p] falls in or between, [findAnchorRange] returns the range from
    the start of the first node of the run to the end of its last node.  The
    run is maximal: the node before it and the node after it, when there is
    one, carry another identifier or none. *)
Theorem findAnchorRange_covers_run (pre run post : list node) (v : string) (p : nat) :
  Forall (carries v) run ->
  (forall n, last pre = Some n -> string_id n /\ ~ carries v n) ->
  (forall n, head post = Some n -> string_id n /\ ~ carries v n) ->
  maxOffset pre < p < maxOffset pre + maxOffset run ->
  findAnchorRange (pre ++ run ++ post) p (Some (VStr v))
  = Some (maxOffset pre, maxOffset pre + maxOffset run).
Proof.
  intros Hrun Hpre Hpost Hp.
  set (ns := pre ++ run ++ post).
  set (lo := length pre).
  assert (Hlen : 0 < length run).
  { destruct run; simpl in *; lia. }
  set (hi := length pre + length run - 1).
  assert (Hhi : hi < length ns).
  { unfold ns, hi. rewrite !length_app. lia. }
  assert (Hlo : startOffset ns lo = maxOffset pre).
  { apply startOffset_app_length. }
  assert (HShi : startOffset ns (S hi) = maxOffset pre + maxOffset run).
  { unfold ns. rewrite app_assoc.
    replace (S hi) with (length (pre ++ run)) by (rewrite length_app; unfold hi; lia).
    by rewrite startOffset_app_length, maxOffset_app. }
  assert (Hin : forall j, lo <= j <= hi -> matches ns (Some (VStr v)) (Some j) = true).
  { intros j Hj.
    destruct (lookup_lt_is_Some_2 run (j - lo)) as [n Hn]; [unfold hi in *; lia|].
    rewrite (matches_lookup ns _ j n).
    - apply node_matches_carries. rewrite Forall_lookup in Hrun. by eapply Hrun.
    - unfold ns. rewrite lookup_app_r by (unfold lo in *; lia).
      rewrite lookup_app_l; [done|]. unfold lo, hi in *. lia. }
  assert (Hbefore : matches ns (Some (VStr v)) (previousSibling lo) = false).
  { destruct lo as [|k] eqn:Elo; [done|]. simpl.
    destruct (lookup_lt_is_Some_2 pre k) as [n Hn]; [unfold lo in *; lia|].
    rewrite (matches_lookup ns _ k n).
    - destruct (Hpre n) as [Hty Hne]; [|by apply node_matches_not_carries].
      rewrite last_lookup. unfold lo in Elo. by rewrite Elo.
    - unfold ns. by rewrite lookup_app_l by (unfold lo in *; lia). }
  assert (Hafter : matches ns (Some (VStr v)) (nextSibling ns hi) = false).
  { unfold nextSibling. destruct (S hi <? length ns) eqn:E; [|done].
    apply Nat.ltb_lt in E.
    assert (Hpl : 0 < length post).
    { unfold ns, hi in E. rewrite !length_app in E. lia. }
    destruct post as [|n post']; [simpl in Hpl; lia|].
    rewrite (matches_lookup ns _ (S hi) n).
    - destruct (Hpost n) as [Hty Hne]; [done|by apply node_matches_not_carries].
    - unfold ns. rewrite app_assoc.
      rewrite lookup_app_r by (rewrite length_app; unfold hi; lia).
      replace (S hi - length (pre ++ run)) with 0 by (rewrite length_app; unfold hi; lia).
      done. }
  unfold findAnchorRange, _findBound.
  destruct (first_node_inside ns p lo hi true) as (i & -> & Hi); [done|unfold lo, hi; lia|lia|].
  destruct (first_node_inside ns p lo hi false) as (k & -> & Hk); [done|unfold lo, hi; lia|lia|].
  rewrite (walk_back_run _ ns _ lo i); [|lia|lia| |done].
  2:{ intros j Hj. apply Hin. lia. }
  simpl.
  rewrite (walk_forward_run _ ns _ hi k); [|lia|lia| |done].
  2:{ intros j Hj. apply Hin. lia. }
  simpl. by rewrite Hlo, HShi.
Qed.

(** C8.  When the first node the walk looks at on one side of [p] is missing
    or does not match [value], [_findBound] returns [p] for that side; when
    this is so on both sides, [findAnchorRange] returns the collapsed range
    at [p].  Both return a result: nothing is raised. *)
Theorem findBound_no_match_is_position (ns : list node) (p : nat) (value : option attr_value)
    (lookBack : bool) :
  matches ns value (first_node ns p lookBack) = false ->
  _findBound ns p value lookBack = Some p /\
  (matches ns value (first_node ns p (negb lookBack)) = false ->
   findAnchorRange ns p value = Some (p, p)).
Proof.
  intros H1. split; [by apply _findBound_no_match|].
  intros H2. unfold findAnchorRange.
  destruct lookBack; cbn [negb] in H2.
  - by rewrite (_findBound_no_match ns p value true H1),
               (_findBound_no_match ns p value false H2).
  - by rewrite (_findBound_no_match ns p value true H2),
               (_findBound_no_match ns p value false H1).
Qed.

(** C9.  The loop of the resolver treats a node as matching the identifier
    [v] exactly when the node carries the attribute with the value [v]; a
    node without the attribute does not match, and a text node and an
    element with the same attributes get the same answer. *)
Theorem matches_iff_carries (ns : list node) (i : nat) (n : node) (v : string) :
  ns !! i = Some n -> string_id n ->
  (matches ns (Some (VStr v)) (Some i) = true <-> carries v n) /\
  (getAttribute n "anchorId" = None -> matches ns (Some (VStr v)) (Some i) = false) /\
  (forall data name,
     node_matches (Some (VStr v)) (Text data (node_attrs n))
     = node_matches (Some (VStr v)) (Element name (node_attrs n))).
Proof.
  intros Hn Hty. rewrite (matches_lookup ns _ i n Hn). split; [|split].
  - split.
    + intros Hm. destruct (decide (getAttribute n "anchorId" = Some (VStr v))) as [Hc|Hc]; [done|].
      rewrite (node_matches_not_carries v n Hty Hc) in Hm. done.
    + apply node_matches_carries.
  - intros Hnone. apply node_matches_not_carries; [done|].
    unfold carries. by rewrite Hnone.
  - done.
Qed.


(** C3.  With a selection that is not collapsed, the anchor command changes
    the attributes exactly on the offsets that lie in a selected range and on
    which the schema permits [anchorId]: there [anchorId] becomes the
    identifier and the flags are applied; every other offset keeps its
    attributes, the content is unchanged, and the command leaves the ranges
    of the selection as they are.  The attributes of the selection are the
    engine's to derive anew once the change is made; nothing is said of
    them. *)
Theorem execute_on_valid_ranges (m : Model) (id : string) (flags : js_object) :
  isCollapsed m = false ->
  js_get flags "anchorId" = None ->
  exists m',
    AnchorCommand_execute m id flags = Some m' /\
    rewritten (fun o => covered (sel_ranges m) o && permitted m "anchorId" o)
      (anchor_attrs id flags) (flatten (nodes m)) (flatten (nodes m')) /\
    sel_ranges m' = sel_ranges m.
Proof.
  intros Hc Hid. eexists. split; [by apply execute_non_collapsed|].
  split.
  - eapply rewritten_intro; [intros a; by apply anchor_write_attrs|].
    intros o. rewrite <- covered_getValidRanges.
    apply (lookup_fold_ranges
             (anchor_op id (splitDecorators flags).1 (splitDecorators flags).2)).
    + intros r m0 o0. apply lookup_anchor_op.
    + apply anchor_write_idemp.
  - apply (fold_keeps_selection
             (anchor_op id (splitDecorators flags).1 (splitDecorators flags).2)).
    intros r m0. apply anchor_op_keeps_selection.
Qed.



(** C6.  With a collapsed selection that has no [anchorId] attribute, the
    anchor command called with the empty identifier returns the model as it
    was: same nodes, same attributes, same selection. *)
Theorem execute_empty_id_no_change (m : Model) (flags : js_object) :
  isCollapsed m = true -> hasAttribute m "anchorId" = false ->
  AnchorCommand_execute m "" flags = Some m.
Proof. apply execute_empty_id. Qed.



End Properties.

(** * Further properties of the code *)

(** ** More on offsets *)

Lemma startOffset_offsetToIndex_le (ns : list node) (p : nat) :
  startOffset ns (offsetToIndex ns p) <= p.
Proof.
  unfold startOffset. revert p. induction ns as [|n ns IH]; intros p; simpl; [lia|].
  destruct (p <? offsetSize n) eqn:E; simpl; [lia|].
  apply Nat.ltb_ge in E. specialize (IH (p - offsetSize n)). lia.
Qed.

Lemma offsetToIndex_lookup_lt (ns : list node) (p : nat) (n : node) :
  ns !! offsetToIndex ns p = Some n ->
  p < startOffset ns (offsetToIndex ns p) + offsetSize n.
Proof.
  unfold startOffset. revert p. induction ns as [|n' ns IH]; intros p; simpl; [done|].
  destruct (p <? offsetSize n') eqn:E; simpl.
  - apply Nat.ltb_lt in E. intros [= <-]. lia.
  - apply Nat.ltb_ge in E. intros H. specialize (IH _ H). lia.
Qed.

Lemma offsetToIndex_lt_max (ns : list node) (p : nat) :
  offsetToIndex ns p < length ns -> p < maxOffset ns.
Proof.
  intros H. destruct (lookup_lt_is_Some_2 ns _ H) as [n Hn].
  pose proof (offsetToIndex_lookup_lt ns p n Hn) as Hlt.
  pose proof (startOffset_S ns _ n Hn) as HS.
  pose proof (startOffset_mono ns (S (offsetToIndex ns p)) (length ns)) as Hm.
  unfold startOffset in Hm at 2. rewrite take_ge in Hm by lia. lia.
Qed.

(** The node that occupies an offset is the only one around it. *)
Lemma offsetToIndex_unique (ns : list node) (o k : nat) :
  startOffset ns k <= o < startOffset ns (S k) -> offsetToIndex ns o = k.
Proof.
  intros [H1 H2].
  assert (Hmax : o < maxOffset ns).
  { pose proof (startOffset_mono ns (S k) (length ns + S k)) as Hm.
    unfold startOffset in Hm at 2. rewrite take_ge in Hm by lia. lia. }
  destruct (offsetToIndex_spec ns o Hmax) as (n & Hn & Hb1 & Hb2).
  rewrite <- (startOffset_S ns _ n Hn) in Hb2.
  set (j := offsetToIndex ns o) in *.
  destruct (decide (j = k)) as [|Hne]; [done|]. exfalso.
  destruct (decide (j < k)).
  - pose proof (startOffset_mono ns (S j) k). lia.
  - pose proof (startOffset_mono ns (S k) j). lia.
Qed.

Lemma lookup_flatten_node (ns : list node) (o : nat) (c : cell) :
  flatten ns !! o = Some c ->
  exists n, ns !! offsetToIndex ns o = Some n /\ c ∈ flatten_node n.
Proof.
  revert o. induction ns as [|n ns IH]; intros o; [done|].
  rewrite flatten_cons. cbn [offsetToIndex].
  destruct (o <? offsetSize n) eqn:E; [apply Nat.ltb_lt in E|apply Nat.ltb_ge in E].
  - rewrite lookup_app_l by (by rewrite length_flatten_node).
    intros H. exists n. split; [done|]. by eapply list_elem_of_lookup_2.
  - rewrite lookup_app_r by (by rewrite length_flatten_node).
    rewrite length_flatten_node. intros H. destruct (IH _ H) as (n' & Hn' & Hc).
    by exists n'.
Qed.

Section ResolverMore.

Context {coerce : BoolStringEq}.

Lemma cell_matches_node (ns : list node) value (o : nat) (c : cell) :
  flatten ns !! o = Some c ->
  cell_matches value c = matches ns value (Some (offsetToIndex ns o)).
Proof.
  intros H. destruct (lookup_flatten_node ns o c H) as (n & Hn & Hc).
  rewrite (matches_lookup ns value _ n Hn).
  unfold cell_matches, node_matches, getAttribute.
  by rewrite (cell_attrs_flatten_node n c Hc).
Qed.

(** What the backward walk returns: the first node of the run of matching
    nodes that ends at the node it starts from. *)
Lemma walk_back_inv fuel (ns : list node) value i lastNode r :
  walk fuel ns value true (Some i) lastNode = Some r ->
  (matches ns value (Some i) = false /\ r = lastNode) \/
  (exists l, r = Some l /\ l <= i /\
     (forall j, l <= j <= i -> matches ns value (Some j) = true) /\
     matches ns value (previousSibling l) = false).
Proof.
  revert i lastNode. induction fuel as [|fuel IH]; intros i lastNode; simpl.
  - destruct (matches ns value (Some i)); [done|]. intros [= <-]. by left.
  - destruct (matches ns value (Some i)) eqn:Hm; [|intros [= <-]; by left].
    intros Hw. right. destruct i as [|j]; simpl in Hw.
    + rewrite walk_stop in Hw by done. injection Hw as <-.
      exists 0. split; [done|]. split; [done|]. split; [|done].
      intros j Hj. by replace j with 0 by lia.
    + destruct (IH j (Some (S j)) Hw) as [[Hn ->]|(l & -> & Hl & Hrun & Hstop)].
      * exists (S j). split; [done|]. split; [done|]. split; [|done].
        intros k Hk. by replace k with (S j) by lia.
      * exists l. split; [done|]. split; [lia|]. split; [|done].
        intros k Hk. destruct (decide (k = S j)) as [->|]; [done|]. apply Hrun. lia.
Qed.

Lemma walk_forward_inv fuel (ns : list node) value i lastNode r :
  walk fuel ns value false (Some i) lastNode = Some r ->
  (matches ns value (Some i) = false /\ r = lastNode) \/
  (exists l, r = Some l /\ i <= l /\
     (forall j, i <= j <= l -> matches ns value (Some j) = true) /\
     matches ns value (nextSibling ns l) = false).
Proof.
  revert i lastNode. induction fuel as [|fuel IH]; intros i lastNode; simpl.
  - destruct (matches ns value (Some i)); [done|]. intros [= <-]. by left.
  - destruct (matches ns value (Some i)) eqn:Hm; [|intros [= <-]; by left].
    intros Hw. right.
    destruct (nextSibling ns i) as [k|] eqn:Hnext.
    + assert (k = S i) as ->.
      { unfold nextSibling in Hnext. destruct (S i <? length ns); congruence. }
      destruct (IH (S i) (Some i) Hw) as [[Hn ->]|(l & -> & Hl & Hrun & Hstop)].
      * exists i. split; [done|]. split; [done|]. split.
        -- intros j Hj. by replace j with i by lia.
        -- by rewrite Hnext.
      * exists l. split; [done|]. split; [lia|]. split; [|done].
        intros j Hj. destruct (decide (j = i)) as [->|]; [done|]. apply Hrun. lia.
    + rewrite walk_stop in Hw by done. injection Hw as <-.
      exists i. split; [done|]. split; [done|]. split.
      * intros j Hj. by replace j with i by lia.
      * by rewrite Hnext.
Qed.

Lemma first_node_index (ns : list node) (p : nat) (lookBack : bool) (i : nat) :
  first_node ns p lookBack = Some i ->
  (i = offsetToIndex ns p /\ (lookBack = true -> textNode ns p = Some i)) \/
  (lookBack = true /\ textNode ns p = None /\ offsetToIndex ns p = S i).
Proof.
  unfold first_node, nodeBefore, nodeAfter.
  destruct (textNode ns p) as [t|] eqn:Ht.
  - intros [= <-]. left. split; [|done].
    unfold textNode in Ht. destruct (ns !! offsetToIndex ns p); [|done].
    by destruct (_ && _); simplify_eq.
  - destruct lookBack.
    + destruct (offsetToIndex ns p) as [|j]; simpl; [done|]. intros [= <-]. by right.
    + destruct (_ <? _); [|done]. intros [= <-]. by left.
Qed.

End ResolverMore.

Lemma textNode_Some (ns : list node) (p i : nat) :
  textNode ns p = Some i ->
  i = offsetToIndex ns p /\ startOffset ns i < p /\ exists n, ns !! i = Some n.
Proof.
  unfold textNode. destruct (ns !! offsetToIndex ns p) as [n|] eqn:Hn; [|done].
  destruct (is_text n); simpl; [|done].
  destruct (_ <? _) eqn:E; [|done]. apply Nat.ltb_lt in E.
  intros [= <-]. split; [done|]. split; [done|]. by exists n.
Qed.

Lemma textNode_None_boundary (ns : list node) (p : nat) :
  textNode ns p = None -> p <= maxOffset ns ->
  startOffset ns (offsetToIndex ns p) = p.
Proof.
  intros Ht Hp. pose proof (startOffset_offsetToIndex_le ns p) as Hle.
  unfold textNode in Ht.
  destruct (ns !! offsetToIndex ns p) as [n|] eqn:Hn.
  - pose proof (offsetToIndex_lookup_lt ns p n Hn) as Hlt.
    destruct n as [data a|name a]; simpl in *; [|lia].
    destruct (_ <? _) eqn:E; [done|]. apply Nat.ltb_ge in E. lia.
  - apply lookup_ge_None_1 in Hn.
    pose proof (offsetToIndex_le ns p).
    assert (offsetToIndex ns p = length ns) as Heq by lia.
    rewrite Heq in *. unfold startOffset in *. rewrite take_ge in * by lia. lia.
Qed.

Section ResolverBounds.

Context {coerce : BoolStringEq}.

Lemma _findBound_back_inv (ns : list node) (p : nat) value (s : nat) :
  _findBound ns p value true = Some s ->
  (s = p /\ matches ns value (first_node ns p true) = false) \/
  (exists l i, first_node ns p true = Some i /\ s = startOffset ns l /\ l <= i /\
     (forall j, l <= j <= i -> matches ns value (Some j) = true) /\
     matches ns value (previousSibling l) = false).
Proof.
  unfold _findBound. cbv zeta.
  destruct (first_node ns p true) as [i|] eqn:Hf.
  - destruct (walk _ _ _ _ _ _) as [r|] eqn:Hw; [|done]. cbn [mbind option_bind].
    destruct (walk_back_inv _ _ _ _ _ _ Hw) as [[Hm ->]|(l & -> & Hl & Hrun & Hstop)].
    + intros [= <-]. by left.
    + intros [= <-]. right. exists l, i. done.
  - rewrite walk_stop by done. cbn [mbind option_bind]. intros [= <-]. by left.
Qed.

Lemma _findBound_forward_inv (ns : list node) (p : nat) value (e : nat) :
  _findBound ns p value false = Some e ->
  (e = p /\ matches ns value (first_node ns p false) = false) \/
  (exists l i, first_node ns p false = Some i /\ e = startOffset ns (S l) /\ i <= l /\
     (forall j, i <= j <= l -> matches ns value (Some j) = true) /\
     matches ns value (nextSibling ns l) = false).
Proof.
  unfold _findBound. cbv zeta.
  destruct (first_node ns p false) as [i|] eqn:Hf.
  - destruct (walk _ _ _ _ _ _) as [r|] eqn:Hw; [|done]. cbn [mbind option_bind].
    destruct (walk_forward_inv _ _ _ _ _ _ Hw) as [[Hm ->]|(l & -> & Hl & Hrun & Hstop)].
    + intros [= <-]. by left.
    + intros [= <-]. right. exists l, i. done.
  - rewrite walk_stop by done. cbn [mbind option_bind]. intros [= <-]. by left.
Qed.

Lemma findAnchorRange_inv (ns : list node) (p : nat) value (s e : nat) :
  findAnchorRange ns p value = Some (s, e) ->
  _findBound ns p value true = Some s /\ _findBound ns p value false = Some e.
Proof.
  unfold findAnchorRange.
  destruct (_findBound ns p value true) as [s'|]; [|done].
  destruct (_findBound ns p value false) as [e'|]; [|done].
  cbn [mbind option_bind]. by intros [= <- <-].
Qed.

Lemma first_node_back_start (ns : list node) (p i : nat) :
  first_node ns p true = Some i -> startOffset ns i <= p.
Proof.
  intros Hf. pose proof (startOffset_offsetToIndex_le ns p) as Hle.
  destruct (first_node_index ns p true i Hf) as [[-> _]|(_ & _ & Heq)]; [done|].
  pose proof (startOffset_mono ns i (S i)). rewrite Heq in Hle. lia.
Qed.

Lemma first_node_forward_end (ns : list node) (p i : nat) :
  first_node ns p false = Some i -> i = offsetToIndex ns p /\ p < startOffset ns (S i).
Proof.
  intros Hf.
  destruct (first_node_index ns p false i Hf) as [[-> _]|(? & _)]; [|done].
  split; [done|].
  assert (Hlt : offsetToIndex ns p < length ns).
  { unfold first_node, nodeAfter in Hf.
    destruct (textNode ns p) as [t|] eqn:Ht.
    - apply textNode_Some in Ht as (-> & _ & n & Hn). by eapply lookup_lt_Some.
    - destruct (_ <? _) eqn:E; [|done]. by apply Nat.ltb_lt in E. }
  destruct (lookup_lt_is_Some_2 ns _ Hlt) as [n Hn].
  rewrite (startOffset_S ns _ n Hn). by apply offsetToIndex_lookup_lt.
Qed.

(** The position lies in the range that is returned. *)
Lemma resolved_contains_position (ns : list node) (p : nat) value (s e : nat) :
  findAnchorRange ns p value = Some (s, e) -> s <= p <= e.
Proof.
  intros [Hs He]%findAnchorRange_inv. split.
  - destruct (_findBound_back_inv ns p value s Hs) as [[-> _]|(l & i & Hf & -> & Hl & _)];
      [done|].
    pose proof (first_node_back_start ns p i Hf).
    pose proof (startOffset_mono ns l i). lia.
  - destruct (_findBound_forward_inv ns p value e He) as [[-> _]|(l & i & Hf & -> & Hl & _)];
      [done|].
    destruct (first_node_forward_end ns p i Hf) as [_ Hlt].
    pose proof (startOffset_mono ns (S i) (S l)). lia.
Qed.

(** Every offset of the returned range is occupied by a matching node. *)
Lemma resolved_all_match (ns : list node) (p : nat) value (s e : nat) (o : nat)
    (c : cell) :
  findAnchorRange ns p value = Some (s, e) ->
  s <= o < e -> flatten ns !! o = Some c ->
  cell_matches value c = true.
Proof.
  intros [Hs He]%findAnchorRange_inv [Ho1 Ho2] Hc.
  rewrite (cell_matches_node ns value o c Hc).
  assert (Hmax : o < maxOffset ns).
  { rewrite <- length_flatten. by eapply lookup_lt_Some. }
  destruct (offsetToIndex_spec ns o Hmax) as (n & Hn & Hb1 & Hb2).
  rewrite <- (startOffset_S ns _ n Hn) in Hb2.
  set (j := offsetToIndex ns o) in *.
  destruct (decide (o < p)) as [Hlt|Hge].
  - destruct (_findBound_back_inv ns p value s Hs)
      as [[-> _]|(l & i & Hf & -> & Hl & Hrun & _)]; [lia|].
    apply Hrun. split.
    + destruct (decide (l <= j)); [done|].
      pose proof (startOffset_mono ns (S j) l). lia.
    + destruct (decide (j <= i)); [done|]. exfalso.
      destruct (first_node_index ns p true i Hf) as [[-> Ht]|(_ & Ht & Heq)].
      * pose proof (startOffset_offsetToIndex_le ns p).
        pose proof (startOffset_mono ns (S (offsetToIndex ns p)) j).
        specialize (Ht eq_refl). apply textNode_Some in Ht as (_ & _ & n' & Hn').
        pose proof (offsetToIndex_lookup_lt ns p n' Hn').
        rewrite (startOffset_S ns _ n' Hn') in *. lia.
      * destruct (decide (p <= maxOffset ns)) as [Hp|Hp].
        -- pose proof (textNode_None_boundary ns p Ht Hp) as Hb.
           rewrite Heq in Hb. pose proof (startOffset_mono ns (S i) j). lia.
        -- pose proof (offsetToIndex_le ns p).
           assert (j < length ns) by (by eapply lookup_lt_Some).
           destruct (decide (offsetToIndex ns p < length ns)) as [Hl2|Hl2].
           ++ apply offsetToIndex_lt_max in Hl2. lia.
           ++ lia.
  - destruct (_findBound_forward_inv ns p value e He)
      as [[-> _]|(l & i & Hf & -> & Hl & Hrun & _)]; [lia|].
    destruct (first_node_forward_end ns p i Hf) as [-> _].
    apply Hrun. split.
    + destruct (decide (offsetToIndex ns p <= j)); [done|]. exfalso.
      pose proof (startOffset_offsetToIndex_le ns p).
      pose proof (startOffset_mono ns (S j) (offsetToIndex ns p)). lia.
    + destruct (decide (j <= l)); [done|].
      pose proof (startOffset_mono ns (S l) j). lia.
Qed.

End ResolverBounds.

Lemma prefix_len_spec {A} (f : A -> bool) (l : list A) (k : nat) :
  (forall i, i < k -> exists x, l !! i = Some x /\ f x = true) ->
  (forall x, l !! k = Some x -> f x = false) ->
  prefix_len f l = k.
Proof.
  revert k. induction l as [|x l IH]; intros k Hin Hout; simpl.
  - destruct k as [|k]; [done|]. destruct (Hin 0) as (y & Hy & _); [lia|done].
  - destruct k as [|k].
    + by rewrite (Hout x).
    + destruct (Hin 0) as (y & [= <-] & ->); [lia|]. f_equal. apply IH.
      * intros i Hi. apply (Hin (S i)). lia.
      * intros y Hy. by apply (Hout y).
Qed.

Lemma prefix_len_inv {A} (f : A -> bool) (l : list A) :
  (forall i, i < prefix_len f l -> exists x, l !! i = Some x /\ f x = true) /\
  (forall x, l !! prefix_len f l = Some x -> f x = false).
Proof.
  induction l as [|x l [IH1 IH2]]; simpl.
  - split; [lia|done].
  - destruct (f x) eqn:E.
    + split.
      * intros [|i] Hi; [by exists x|]. apply IH1. lia.
      * intros y Hy. by apply IH2.
    + split; [lia|]. by intros y [= <-].
Qed.

Lemma lookup_reverse_take {A} (l : list A) (p i : nat) :
  p <= length l -> i < p -> reverse (take p l) !! i = l !! (p - 1 - i).
Proof.
  intros Hp Hi. rewrite reverse_lookup by (rewrite length_take; lia).
  rewrite length_take, Nat.min_l by done.
  rewrite lookup_take_lt by lia. f_equal. lia.
Qed.

Lemma lookup_reverse_take_ge {A} (l : list A) (p i : nat) :
  p <= length l -> p <= i -> reverse (take p l) !! i = None.
Proof.
  intros Hp Hi. apply lookup_ge_None_2. rewrite length_reverse, length_take. lia.
Qed.

Lemma offsetToIndex_startOffset (ns : list node) (k : nat) (n : node) :
  ns !! k = Some n -> 0 < offsetSize n -> offsetToIndex ns (startOffset ns k) = k.
Proof.
  intros Hn Hpos. apply offsetToIndex_unique. rewrite (startOffset_S ns k n Hn). lia.
Qed.

Lemma no_empty_node_lookup (ns : list node) (k : nat) (n : node) :
  no_empty_node ns -> ns !! k = Some n -> 0 < offsetSize n.
Proof. intros H Hn. unfold no_empty_node in H. rewrite Forall_lookup in H. by eapply H. Qed.

Lemma startOffset_length (ns : list node) (k : nat) :
  length ns <= k -> startOffset ns k = maxOffset ns.
Proof. intros H. unfold startOffset. by rewrite take_ge. Qed.

Section ResolverCells.

Context {coerce : BoolStringEq}.

Lemma first_node_forward_lt (ns : list node) (p : nat) :
  p < maxOffset ns -> first_node ns p false = Some (offsetToIndex ns p).
Proof.
  intros Hp. destruct (offsetToIndex_spec ns p Hp) as (n & Hn & _).
  unfold first_node, nodeAfter.
  destruct (textNode ns p) as [t|] eqn:Ht.
  - apply textNode_Some in Ht as (-> & _). done.
  - assert ((offsetToIndex ns p <? length ns) = true) as ->; [|done].
    apply Nat.ltb_lt. by eapply lookup_lt_Some.
Qed.

(** The cell after the returned range does not match. *)
Lemma findAnchorRange_end_maximal (ns : list node) (p : nat) value (s e : nat) (c : cell) :
  no_empty_node ns ->
  findAnchorRange ns p value = Some (s, e) ->
  flatten ns !! e = Some c -> cell_matches value c = false.
Proof.
  intros Hne [_ He]%findAnchorRange_inv Hc.
  rewrite (cell_matches_node ns value e c Hc).
  assert (Hmax : e < maxOffset ns).
  { rewrite <- length_flatten. by eapply lookup_lt_Some. }
  destruct (_findBound_forward_inv ns p value e He)
    as [[-> Hm]|(l & i & Hf & -> & Hl & Hrun & Hstop)].
  - by rewrite first_node_forward_lt in Hm.
  - destruct (decide (S l < length ns)) as [Hlt|Hge].
    + destruct (lookup_lt_is_Some_2 ns _ Hlt) as [n Hn].
      rewrite (offsetToIndex_startOffset ns (S l) n Hn) by (by eapply no_empty_node_lookup).
      unfold nextSibling in Hstop. apply Nat.ltb_lt in Hlt. by rewrite Hlt in Hstop.
    + rewrite startOffset_length in Hmax by lia. lia.
Qed.

(** The cell before the returned range does not match. *)
Lemma findAnchorRange_start_maximal (ns : list node) (p : nat) value (s e : nat) (c : cell) :
  no_empty_node ns ->
  findAnchorRange ns p value = Some (s, e) ->
  0 < s -> flatten ns !! (s - 1) = Some c -> cell_matches value c = false.
Proof.
  intros Hne [Hs _]%findAnchorRange_inv Hpos Hc.
  rewrite (cell_matches_node ns value (s - 1) c Hc).
  assert (Hmax : s - 1 < maxOffset ns).
  { rewrite <- length_flatten. by eapply lookup_lt_Some. }
  assert (Hprev : forall k n, ns !! k = Some n -> startOffset ns (S k) = s ->
                              offsetToIndex ns (s - 1) = k).
  { intros k n Hn Hk. apply offsetToIndex_unique.
    pose proof (no_empty_node_lookup ns k n Hne Hn).
    rewrite (startOffset_S ns k n Hn) in *. lia. }
  destruct (_findBound_back_inv ns p value s Hs)
    as [[-> Hm]|(l & i & Hf & -> & Hl & Hrun & Hstop)].
  - destruct (first_node ns p true) as [i|] eqn:Hf.
    + destruct (first_node_index ns p true i Hf) as [[-> Ht]|(_ & Ht & Heq)].
      * specialize (Ht eq_refl). apply textNode_Some in Ht as (_ & Hlt & n & Hn).
        pose proof (offsetToIndex_lookup_lt ns p n Hn).
        rewrite (offsetToIndex_unique ns (p - 1) (offsetToIndex ns p)); [done|].
        rewrite (startOffset_S ns _ n Hn). lia.
      * destruct (lookup_lt_is_Some_2 ns i) as [n Hn].
        { pose proof (offsetToIndex_le ns p). lia. }
        rewrite (Hprev i n Hn); [done|].
        rewrite <- Heq. apply textNode_None_boundary; [done|lia].
    + exfalso. unfold first_node, nodeBefore in Hf.
      destruct (textNode ns p) as [t|] eqn:Ht; [done|].
      destruct (offsetToIndex ns p) as [|j] eqn:Heq; [|done].
      pose proof (textNode_None_boundary ns p Ht) as Hb. rewrite Heq in Hb.
      unfold startOffset in Hb. simpl in Hb. lia.
  - destruct l as [|k]; [unfold startOffset in Hpos; simpl in Hpos; lia|].
    simpl in Hstop.
    destruct (lookup_lt_is_Some_2 ns k) as [n Hn].
    { assert (S k < length ns); [|lia]. apply (matches_Some_lt ns value). apply Hrun. lia. }
    by rewrite (Hprev k n Hn).
Qed.

(** The returned range, read off the content offset by offset: it extends
    from the position over the matching cells on each side. *)
Lemma resolved_by_cells (ns : list node) (p : nat) value :
  no_empty_node ns -> p <= maxOffset ns ->
  findAnchorRange ns p value
  = Some (p - prefix_len (cell_matches value) (reverse (take p (flatten ns))),
          p + prefix_len (cell_matches value) (drop p (flatten ns))).
Proof.
  intros Hne Hp.
  destruct (findAnchorRange_total ns p value) as [[s e] Hr]. rewrite Hr.
  destruct (resolved_contains_position ns p value s e Hr) as [Hsp Hpe].
  assert (He : e <= maxOffset ns).
  { apply findAnchorRange_inv in Hr as [_ He].
    destruct (_findBound_forward_inv ns p value e He) as [[-> _]|(l & i & _ & -> & _)];
      [done|].
    rewrite <- (startOffset_length ns (length ns + S l)) by lia.
    apply startOffset_mono. lia. }
  rewrite (prefix_len_spec _ (drop p (flatten ns)) (e - p)).
  - rewrite (prefix_len_spec _ (reverse (take p (flatten ns))) (p - s)).
    + do 2 f_equal; lia.
    + intros i Hi. rewrite lookup_reverse_take by (rewrite ?length_flatten; lia).
      destruct (lookup_lt_is_Some_2 (flatten ns) (p - 1 - i)) as [c Hc];
        [rewrite length_flatten; lia|].
      exists c. split; [done|].
      apply (resolved_all_match ns p value s e (p - 1 - i) c Hr); [lia|done].
    + intros c. destruct (decide (p - s < p)) as [Hlt|Hge].
      * rewrite lookup_reverse_take by (rewrite ?length_flatten; lia).
        replace (p - 1 - (p - s)) with (s - 1) by lia.
        apply (findAnchorRange_start_maximal ns p value s e c Hne Hr). lia.
      * rewrite lookup_reverse_take_ge by (rewrite ?length_flatten; lia). done.
  - intros i Hi. rewrite lookup_drop.
    destruct (lookup_lt_is_Some_2 (flatten ns) (p + i)) as [c Hc];
      [rewrite length_flatten; lia|].
    exists c. split; [done|].
    apply (resolved_all_match ns p value s e (p + i) c Hr); [lia|done].
  - intros c. rewrite lookup_drop. replace (p + (e - p)) with e by lia.
    by apply (findAnchorRange_end_maximal ns p value s e c Hne Hr).
Qed.

End ResolverCells.

Lemma flatten_node_lookup_0 (n : node) :
  0 < offsetSize n -> exists c, flatten_node n !! 0 = Some c.
Proof.
  intros H. apply lookup_lt_is_Some_2. by rewrite length_flatten_node.
Qed.

Section ResolverCorollaries.

Context {coerce : BoolStringEq}.

Lemma cell_matches_flatten_node value (n : node) (c : cell) :
  c ∈ flatten_node n -> cell_matches value c = node_matches value n.
Proof.
  intros Hc. unfold cell_matches, node_matches, getAttribute.
  by rewrite (cell_attrs_flatten_node n c Hc).
Qed.

Lemma cell_matches_flatten_run value (run : list node) (o : nat) (c : cell) :
  Forall (fun n => node_matches value n = true) run ->
  flatten run !! o = Some c -> cell_matches value c = true.
Proof.
  intros Hrun Hc. destruct (lookup_flatten_node run o c Hc) as (n & Hn & Hin).
  rewrite (cell_matches_flatten_node value n c Hin).
  rewrite Forall_lookup in Hrun. by eapply Hrun.
Qed.

(** The returned range cannot be extended on either side. *)
Lemma resolved_maximal (ns : list node) (p : nat) value (s e : nat) :
  no_empty_node ns ->
  findAnchorRange ns p value = Some (s, e) ->
  (forall c, 0 < s -> flatten ns !! (s - 1) = Some c -> cell_matches value c = false) /\
  (forall c, flatten ns !! e = Some c -> cell_matches value c = false).
Proof.
  intros Hne Hr. split.
  - intros c. by apply (findAnchorRange_start_maximal ns p value s e c).
  - intros c. by apply (findAnchorRange_end_maximal ns p value s e c).
Qed.

(** X5.  Two lists of nodes with the same content, offset by offset, give the
    same range: how the text is cut into nodes does not matter. *)
Theorem findAnchorRange_content_only (ns ns' : list node) (p : nat) value :
  no_empty_node ns -> no_empty_node ns' ->
  flatten ns = flatten ns' -> p <= maxOffset ns ->
  findAnchorRange ns p value = findAnchorRange ns' p value.
Proof.
  intros Hne Hne' Hfl Hp.
  rewrite (resolved_by_cells ns p value Hne Hp).
  rewrite (resolved_by_cells ns' p value Hne').
  - by rewrite Hfl.
  - by rewrite <- length_flatten, <- Hfl, length_flatten.
Qed.

Lemma findAnchorRange_from_cells (ns : list node) (q : nat) value (s e : nat) :
  no_empty_node ns -> s <= q <= e -> e <= maxOffset ns ->
  (forall o c, s <= o < e -> flatten ns !! o = Some c -> cell_matches value c = true) ->
  (forall c, 0 < s -> flatten ns !! (s - 1) = Some c -> cell_matches value c = false) ->
  (forall c, flatten ns !! e = Some c -> cell_matches value c = false) ->
  findAnchorRange ns q value = Some (s, e).
Proof.
  intros Hne [Hsq Hqe] He Hin Hbefore Hafter.
  rewrite (resolved_by_cells ns q value Hne) by lia.
  rewrite (prefix_len_spec _ (drop q (flatten ns)) (e - q)).
  - rewrite (prefix_len_spec _ (reverse (take q (flatten ns))) (q - s)).
    + do 2 f_equal; lia.
    + intros i Hi. rewrite lookup_reverse_take by (rewrite ?length_flatten; lia).
      destruct (lookup_lt_is_Some_2 (flatten ns) (q - 1 - i)) as [c Hc];
        [rewrite length_flatten; lia|].
      exists c. split; [done|]. apply (Hin (q - 1 - i)); [lia|done].
    + intros c. destruct (decide (q - s < q)) as [Hlt|Hge].
      * rewrite lookup_reverse_take by (rewrite ?length_flatten; lia).
        replace (q - 1 - (q - s)) with (s - 1) by lia. apply Hbefore. lia.
      * rewrite lookup_reverse_take_ge by (rewrite ?length_flatten; lia). done.
  - intros i Hi. rewrite lookup_drop.
    destruct (lookup_lt_is_Some_2 (flatten ns) (q + i)) as [c Hc];
      [rewrite length_flatten; lia|].
    exists c. split; [done|]. apply (Hin (q + i)); [lia|done].
  - intros c. rewrite lookup_drop. replace (q + (e - q)) with e by lia. apply Hafter.
Qed.

Lemma findAnchorRange_end_le (ns : list node) (p : nat) value (s e : nat) :
  p <= maxOffset ns -> findAnchorRange ns p value = Some (s, e) -> e <= maxOffset ns.
Proof.
  intros Hp [_ He]%findAnchorRange_inv.
  destruct (_findBound_forward_inv ns p value e He) as [[-> _]|(l & i & _ & -> & _)];
    [done|].
  rewrite <- (startOffset_length ns (length ns + S l)) by lia.
  apply startOffset_mono. lia.
Qed.

(** X6.  Every position of the returned range resolves to the same range. *)
Theorem findAnchorRange_stable (ns : list node) (p q : nat) value (s e : nat) :
  no_empty_node ns -> p <= maxOffset ns ->
  findAnchorRange ns p value = Some (s, e) ->
  s <= q <= e ->
  findAnchorRange ns q value = Some (s, e).
Proof.
  intros Hne Hp Hr Hq.
  destruct (resolved_maximal ns p value s e Hne Hr) as [Hb Ha].
  apply findAnchorRange_from_cells; try done.
  - by eapply findAnchorRange_end_le.
  - intros o c Ho Hc. by apply (resolved_all_match ns p value s e o c).
Qed.

(** X7.  A run of matching nodes between neighbours that do not match is resolved
    from every position of the run, its two edges included. *)
Theorem findAnchorRange_run_edges (pre run post : list node) value (p : nat) :
  no_empty_node (pre ++ run ++ post) ->
  Forall (fun n => node_matches value n = true) run ->
  (forall n, last pre = Some n -> node_matches value n = false) ->
  (forall n, head post = Some n -> node_matches value n = false) ->
  maxOffset pre <= p <= maxOffset pre + maxOffset run ->
  findAnchorRange (pre ++ run ++ post) p value
  = Some (maxOffset pre, maxOffset pre + maxOffset run).
Proof.
  intros Hne Hrun Hpre Hpost Hp.
  apply no_empty_node_app in Hne as [Hne1 Hne23].
  pose proof Hne23 as Hne23'. apply no_empty_node_app in Hne23' as [Hne2 Hne3].
  apply findAnchorRange_from_cells.
  - apply no_empty_node_app. split; [done|]. by apply no_empty_node_app.
  - done.
  - rewrite !maxOffset_app. lia.
  - intros o c Ho. rewrite flatten_app, lookup_app_r by (rewrite length_flatten; lia).
    rewrite flatten_app, lookup_app_l by (rewrite !length_flatten; lia).
    rewrite length_flatten. by apply cell_matches_flatten_run.
  - intros c Hpos. rewrite flatten_app, lookup_app_l by (rewrite length_flatten; lia).
    intros Hc. destruct (lookup_flatten_node pre _ c Hc) as (n & Hn & Hin).
    rewrite (cell_matches_flatten_node value n c Hin). apply Hpre.
    rewrite last_lookup. rewrite <- Hn. f_equal.
    assert (Hlt : offsetToIndex pre (maxOffset pre - 1) < length pre)
      by (by eapply lookup_lt_Some).
    destruct (decide (offsetToIndex pre (maxOffset pre - 1) = pred (length pre)))
      as [|Hneq]; [done|]. exfalso.
    pose proof (offsetToIndex_lookup_lt pre _ n Hn) as Hb.
    rewrite <- (startOffset_S pre _ n Hn) in Hb.
    destruct (lookup_lt_is_Some_2 pre (pred (length pre))) as [n' Hn']; [lia|].
    pose proof (no_empty_node_lookup pre _ n' Hne1 Hn') as Hpos'.
    pose proof (startOffset_S pre _ n' Hn') as HS.
    replace (S (pred (length pre))) with (length pre) in HS by lia.
    rewrite (startOffset_length pre (length pre)) in HS by lia.
    pose proof (startOffset_mono pre (S (offsetToIndex pre (maxOffset pre - 1)))
                  (pred (length pre))). lia.
  - intros c. rewrite app_assoc, flatten_app.
    rewrite lookup_app_r by (rewrite length_flatten, maxOffset_app; lia).
    rewrite length_flatten, maxOffset_app, Nat.sub_diag.
    destruct post as [|n post']; [done|].
    rewrite flatten_cons. intros Hc.
    destruct (flatten_node_lookup_0 n) as [c' Hc'].
    { by apply (no_empty_node_lookup (n :: post') 0 n). }
    rewrite lookup_app_l in Hc by (eapply lookup_lt_Some; exact Hc').
    rewrite (cell_matches_flatten_node value n c); [by apply Hpost|].
    by eapply list_elem_of_lookup_2.
Qed.

End ResolverCorollaries.

Lemma existsb_false_elem {A} (f : A -> bool) (l : list A) (x : A) :
  existsb f l = false -> x ∈ l -> f x = false.
Proof.
  induction l as [|y l IH]; simpl; [by intros _ ?%elem_of_nil|].
  intros [Hy Hl]%orb_false_iff [->|Hx]%elem_of_cons; [done|by apply IH].
Qed.

Lemma existsb_true_elem {A} (f : A -> bool) (l : list A) :
  existsb f l = true -> exists x, x ∈ l /\ f x = true.
Proof.
  induction l as [|y l IH]; simpl; [done|].
  intros [Hy|Hl]%orb_true_iff.
  - exists y. split; [apply list_elem_of_here|done].
  - destruct (IH Hl) as (x & Hx & Hf). exists x. split; [by apply list_elem_of_further|done].
Qed.

Lemma existsb_elem_true {A} (f : A -> bool) (l : list A) (x : A) :
  x ∈ l -> f x = true -> existsb f l = true.
Proof.
  induction l as [|y l IH]; simpl; [by intros ?%elem_of_nil|].
  intros [->|Hx]%elem_of_cons Hf; apply orb_true_iff; [by left|right; by apply IH].
Qed.

Lemma elem_of_List_filter {A} (f : A -> bool) (l : list A) (x : A) :
  x ∈ List.filter f l <-> x ∈ l /\ f x = true.
Proof. rewrite !list_elem_of_In. apply filter_In. Qed.

(** When no item permits the attribute, the loop yields no range. *)
Lemma validRanges_loop_none check attribute (items : list (nat * node)) (s : nat) :
  (forall x, x ∈ items -> check (schema_item (snd x)) attribute = false) ->
  validRanges_loop check attribute items s s = [].
Proof.
  revert s. induction items as [|[off item] items IH]; intros s Hall; simpl.
  - by rewrite bool_decide_eq_true_2.
  - pose proof (Hall (off, item) (list_elem_of_here _ _)) as Hhd. simpl in Hhd. rewrite Hhd.
    rewrite bool_decide_eq_true_2 by done. simpl. apply IH.
    intros x Hx. apply Hall. by apply list_elem_of_further.
Qed.

Lemma items_from_cells (L : list node) (off0 off : nat) (n : node) :
  (off, n) ∈ items_from off0 L ->
  off0 <= off /\
  forall k c, flatten_node n !! k = Some c -> flatten L !! (off - off0 + k) = Some c.
Proof.
  revert off0. induction L as [|n' L IH]; intros off0; simpl; [by intros ?%elem_of_nil|].
  intros [[= -> ->]|Hin]%elem_of_cons.
  - split; [done|]. intros k c Hc. rewrite Nat.sub_diag, flatten_cons. simpl.
    by apply lookup_app_l_Some.
  - destruct (IH _ Hin) as [Hle Hcells]. split; [lia|].
    intros k c Hc. rewrite flatten_cons, lookup_app_r by (rewrite length_flatten_node; lia).
    rewrite length_flatten_node.
    replace (off - off0 + k - offsetSize n') with (off - (off0 + offsetSize n') + k) by lia.
    by apply Hcells.
Qed.

Lemma items_from_elem (L : list node) (off0 off : nat) (n : node) :
  (off, n) ∈ items_from off0 L -> n ∈ L.
Proof.
  revert off0. induction L as [|n' L IH]; intros off0; simpl; [by intros ?%elem_of_nil|].
  intros [[= -> ->]|Hin]%elem_of_cons; [apply list_elem_of_here|].
  apply list_elem_of_further. by eapply IH.
Qed.

Lemma offsetSize_node_setAttribute key value (n : node) :
  offsetSize (node_setAttribute key value n) = offsetSize n.
Proof. by destruct n. Qed.

Lemma no_empty_node_setAttributeOnRange key value (r : range) (ns : list node) :
  no_empty_node ns -> no_empty_node (setAttributeOnRange key value r ns).
Proof.
  intros Hne. unfold setAttributeOnRange, no_empty_node.
  apply Forall_fmap, Forall_forall. intros [off n] Hin. simpl.
  assert (Hpos : 0 < offsetSize n).
  { apply items_from_elem in Hin.
    pose proof (no_empty_node_splitAt (snd r) _ (no_empty_node_splitAt (fst r) _ Hne)) as H.
    unfold no_empty_node in H. rewrite Forall_forall in H. by apply H. }
  destruct (inside r (off, n)); [by rewrite offsetSize_node_setAttribute|done].
Qed.

Section CommandStates.

Context {coerce : BoolStringEq}.

(** X9.  When [refresh] has disabled the anchor command on a selection that is
    not collapsed, [execute] changes nothing. *)
Theorem execute_disabled_no_change (m : Model) (c : AnchorCommand) (id : string)
    (flags : js_object) :
  isCollapsed m = false ->
  cmd_isEnabled (AnchorCommand_refresh m c) = false ->
  AnchorCommand_execute m id flags = Some m.
Proof.
  intros Hc Hen. rewrite (execute_non_collapsed m id flags Hc).
  simpl in Hen. unfold checkAttributeInSelection in Hen. rewrite Hc in Hen.
  assert (Hnone : getValidRanges m (sel_ranges m) "anchorId" = []); [|by rewrite Hnone].
  unfold getValidRanges.
  induction (sel_ranges m) as [|r rs IH]; [done|].
  simpl in Hen. apply orb_false_iff in Hen as [Hr Hrs].
  rewrite bind_cons, (IH Hrs), app_nil_r.
  apply validRanges_loop_none. intros x Hx.
  by apply (existsb_false_elem _ _ x Hr).
Qed.

(** X10.  When [refresh] has enabled the anchor command on a selection that is
    not collapsed, [execute] gives the identifier to at least one selected
    offset. *)
Theorem execute_enabled_writes (m : Model) (c : AnchorCommand) (id : string)
    (flags : js_object) :
  isCollapsed m = false ->
  cmd_isEnabled (AnchorCommand_refresh m c) = true ->
  no_empty_node (nodes m) ->
  js_get flags "anchorId" = None ->
  exists m' o c',
    AnchorCommand_execute m id flags = Some m' /\
    covered (sel_ranges m) o = true /\
    flatten (nodes m') !! o = Some c' /\
    c'.2 !! "anchorId" = Some (VStr id).
Proof.
  intros Hc Hen Hne Hid. simpl in Hen. unfold checkAttributeInSelection in Hen.
  rewrite Hc in Hen.
  apply existsb_true_elem in Hen as (r & Hr & Hex).
  apply existsb_true_elem in Hex as ([off n] & Hx & Hcheck). simpl in Hcheck.
  unfold getItems in Hx. apply elem_of_List_filter in Hx as [Hx Hin].
  pose proof (items_from_elem _ _ _ _ Hx) as Hn.
  assert (Hpos : 0 < offsetSize n).
  { pose proof (no_empty_node_splitAt (snd r) _ (no_empty_node_splitAt (fst r) _ Hne)) as H.
    unfold no_empty_node in H. rewrite Forall_forall in H. by apply H. }
  destruct (items_from_cells _ _ _ _ Hx) as [_ Hcells].
  destruct (flatten_node_lookup_0 n Hpos) as [cell Hcell].
  specialize (Hcells 0 cell Hcell).
  rewrite !flatten_splitAt, Nat.sub_0_r, Nat.add_0_r in Hcells.
  unfold inside in Hin. cbn [fst snd] in Hin.
  apply andb_true_iff in Hin as [H1%Nat.leb_le H2%Nat.leb_le].
  assert (Hcov : covered (sel_ranges m) off = true).
  { apply (existsb_elem_true _ _ r Hr). unfold in_range.
    apply andb_true_iff. split; [by apply Nat.leb_le|apply Nat.ltb_lt; lia]. }
  assert (Hperm : permitted m "anchorId" off = true).
  { unfold permitted. rewrite Hcells.
    rewrite (cell_item_flatten_node n cell); [done|]. by eapply list_elem_of_lookup_2. }
  eexists _, off, _. split; [by apply execute_non_collapsed|]. split; [done|].
  split.
  - rewrite (lookup_fold_ranges
               (anchor_op id (splitDecorators flags).1 (splitDecorators flags).2)
               (anchor_write id (splitDecorators flags).1 (splitDecorators flags).2)).
    + rewrite covered_getValidRanges, Hcov, Hperm, Hcells. done.
    + intros r0 m0 o0. apply lookup_anchor_op.
    + apply anchor_write_idemp.
  - simpl. by destruct (anchor_write_attrs id flags (snd cell) Hid) as [H _].
Qed.

(** X11.  With a collapsed selection that has the [anchorId] attribute, which is
    when [refresh] enables the unanchor command, [execute] leaves every
    offset that has no identifier as it is. *)
Theorem unanchor_keeps_plain_content (editor : Editor) :
  isCollapsed (model editor) = true ->
  UnanchorCommand_refresh (model editor) = true ->
  exists editor',
    UnanchorCommand_execute editor = Some editor' /\
    forall o c, flatten (nodes (model editor)) !! o = Some c ->
                c.2 !! "anchorId" = None ->
                flatten (nodes (model editor')) !! o = Some c.
Proof.
  intros Hc Hen. unfold UnanchorCommand_refresh, hasAttribute in Hen.
  apply bool_decide_eq_true in Hen as [v Hv].
  destruct (isCollapsed_inv _ Hc) as (p & _ & Hp).
  destruct (findAnchorRange_total (nodes (model editor)) p
              (sel_attrs (model editor) !! "anchorId")) as [[s e] Hspan].
  eexists. split.
  - apply (unanchor_execute_targets editor [(s, e)]). rewrite Hc. by exists p, (s, e).
  - intros o c Hcell Hnone. cbn [model].
    rewrite (lookup_fold_ranges (unanchor_op (decorator_ids editor))
               (unanchor_write (decorator_ids editor))).
    + rewrite covered_singleton, Hcell.
      destruct (in_range (s, e) o) eqn:Hin; [|done]. exfalso.
      unfold in_range in Hin. cbn [fst snd] in Hin.
      apply andb_true_iff in Hin as [H1%Nat.leb_le H2%Nat.ltb_lt].
      pose proof (resolved_all_match _ _ _ s e o c Hspan (conj H1 H2) Hcell) as Hm.
      unfold cell_matches in Hm. rewrite Hnone, Hv in Hm. done.
    + intros r m0 o0. apply lookup_unanchor_op.
    + apply unanchor_write_idemp.
Qed.

End CommandStates.

Lemma isCollapsed_ranges (m m' : Model) :
  sel_ranges m' = sel_ranges m -> isCollapsed m' = isCollapsed m.
Proof. unfold isCollapsed. by intros ->. Qed.

Lemma no_empty_node_fold_writes value (r : range) (keys : list string) (m : Model) :
  no_empty_node (nodes m) ->
  no_empty_node
    (nodes (foldl (fun m item => set_nodes (setAttributeOnRange item value r (nodes m)) m)
                  m keys)).
Proof.
  revert m. induction keys as [|k keys IH]; intros m Hne; simpl; [done|].
  apply IH. simpl. by apply no_empty_node_setAttributeOnRange.
Qed.

Lemma no_empty_node_anchor_op id t f (r : range) (m : Model) :
  no_empty_node (nodes m) -> no_empty_node (nodes (anchor_op id t f r m)).
Proof.
  intros Hne. unfold anchor_op, applyDecorators, writer_setAttribute, writer_removeAttribute.
  apply no_empty_node_fold_writes, no_empty_node_fold_writes. simpl.
  by apply no_empty_node_setAttributeOnRange.
Qed.

Section Compositions.

Context {coerce : BoolStringEq}.

(** X12.  Anchor, then unanchor, on a selection that is not collapsed and had no
    anchor attribute yet: the content is what it was, provided every name
    flagged true is a decorator of the command. *)
Theorem anchor_then_unanchor_restores (editor : Editor) (id : string) (flags : js_object) :
  isCollapsed (model editor) = false ->
  (forall name, js_get flags name = Some true -> name ∈ decorator_ids editor) ->
  (forall o c, covered (sel_ranges (model editor)) o = true ->
               flatten (nodes (model editor)) !! o = Some c ->
               c.2 !! "anchorId" = None /\
               (forall k, k ∈ decorator_ids editor -> c.2 !! k = None) /\
               (forall k, js_get flags k = Some false -> c.2 !! k = None)) ->
  exists m1 editor2,
    AnchorCommand_execute (model editor) id flags = Some m1 /\
    UnanchorCommand_execute {| model := m1; commands_anchor := commands_anchor editor |}
    = Some editor2 /\
    flatten (nodes (model editor2)) = flatten (nodes (model editor)).
Proof.
  intros Hc Hreg Hfresh.
  set (m := model editor) in *.
  set (t := (splitDecorators flags).1). set (f := (splitDecorators flags).2).
  set (m1 := foldl (fun m r => anchor_op id t f r m) m
               (getValidRanges m (sel_ranges m) "anchorId")).
  set (editor1 := {| model := m1; commands_anchor := commands_anchor editor |}).
  assert (Hsel1 : sel_ranges m1 = sel_ranges m).
  { apply (fold_keeps_selection (anchor_op id t f)). intros r m0.
    apply anchor_op_keeps_selection. }
  assert (Hc1 : isCollapsed (model editor1) = false).
  { simpl. by rewrite (isCollapsed_ranges m m1 Hsel1). }
  exists m1. eexists. split; [by apply execute_non_collapsed|]. split.
  - apply (unanchor_execute_targets editor1 (sel_ranges m)). by rewrite Hc1.
  - subst editor1. cbn [model].
    change (decorator_ids {| model := m1; commands_anchor := commands_anchor editor |})
      with (decorator_ids editor).
    apply list_eq. intros o.
    rewrite (lookup_fold_ranges (unanchor_op (decorator_ids editor))
               (unanchor_write (decorator_ids editor)));
      [|intros r m0 o0; apply lookup_unanchor_op|apply unanchor_write_idemp].
    unfold m1.
    rewrite (lookup_fold_ranges (anchor_op id t f) (anchor_write id t f));
      [|intros r m0 o0; apply lookup_anchor_op|apply anchor_write_idemp].
    rewrite covered_getValidRanges.
    destruct (flatten (nodes m) !! o) as [[u a]|] eqn:Hcell; [|done].
    cbn [fmap option_fmap option_map].
    destruct (covered (sel_ranges m) o) eqn:Hcov; [|done].
    destruct (Hfresh o (u, a) Hcov Hcell) as (Hid & Hdec & Hfalsy). cbn [snd] in *.
    f_equal. cbn [andb].
    assert (Hplain : unanchor_write (decorator_ids editor) a = a).
    { apply map_eq. intros k. rewrite lookup_unanchor_write.
      case_bool_decide as Hk; [by rewrite Hdec|].
      case_bool_decide as Hk2; [by subst|done]. }
    destruct (permitted m "anchorId" o); unfold cell_map; cbn [fst snd]; f_equal; [|done].
    apply map_eq. intros k. rewrite lookup_unanchor_write, lookup_anchor_write.
    case_bool_decide as Hk; [by rewrite Hdec|].
    case_bool_decide as Hk2; [by subst|].
    case_bool_decide as Hk3.
    { unfold f in Hk3. apply splitDecorators_falsy in Hk3. by rewrite Hfalsy. }
    case_bool_decide as Hk4; [|done].
    unfold t in Hk4. apply splitDecorators_truthy in Hk4. destruct Hk. by apply Hreg.
Qed.

(** X13.  Unanchor on a selection that is not collapsed changes nothing when it is
    run a second time. *)
Theorem unanchor_twice (editor : Editor) :
  isCollapsed (model editor) = false ->
  exists editor1 editor2,
    UnanchorCommand_execute editor = Some editor1 /\
    UnanchorCommand_execute editor1 = Some editor2 /\
    flatten (nodes (model editor2)) = flatten (nodes (model editor1)).
Proof.
  intros Hc.
  set (m := model editor) in *.
  set (ids := decorator_ids editor).
  set (m1 := foldl (fun m r => unanchor_op ids r m) m (sel_ranges m)).
  set (editor1 := {| model := m1; commands_anchor := commands_anchor editor |}).
  assert (Hsel1 : sel_ranges m1 = sel_ranges m).
  { apply (fold_keeps_selection (unanchor_op ids)). intros r m0.
    apply unanchor_op_keeps_selection. }
  assert (Hc1 : isCollapsed (model editor1) = false).
  { simpl. by rewrite (isCollapsed_ranges m m1 Hsel1). }
  exists editor1. eexists. split; [|split].
  - apply (unanchor_execute_targets editor (sel_ranges m)). fold m. by rewrite Hc.
  - apply (unanchor_execute_targets editor1 (sel_ranges m)). by rewrite Hc1.
  - subst editor1. cbn [model].
    change (decorator_ids {| model := m1; commands_anchor := commands_anchor editor |})
      with ids.
    apply list_eq. intros o.
    rewrite (lookup_fold_ranges (unanchor_op ids) (unanchor_write ids));
      [|intros r m0 o0; apply lookup_unanchor_op|apply unanchor_write_idemp].
    unfold m1.
    rewrite (lookup_fold_ranges (unanchor_op ids) (unanchor_write ids));
      [|intros r m0 o0; apply lookup_unanchor_op|apply unanchor_write_idemp].
    destruct (flatten (nodes m) !! o) as [[u a]|]; [|done].
    cbn [fmap option_fmap option_map].
    destruct (covered (sel_ranges m) o); [|done].
    unfold cell_map. cbn [fst snd]. by rewrite unanchor_write_idemp.
Qed.

(** X8.  Renaming the anchor around the caret and resolving again at the caret
    with the new identifier: the new range contains the renamed span, and it
    is that span on each side where the neighbour does not carry the new
    identifier already. *)
Theorem rename_then_resolve (m : Model) (id : string) (flags : js_object) :
  isCollapsed m = true -> hasAttribute m "anchorId" = true ->
  js_get flags "anchorId" = None ->
  no_empty_node (nodes m) ->
  (forall p, getFirstPosition m = Some p -> p <= maxOffset (nodes m)) ->
  exists p s e m' s' e',
    getFirstPosition m = Some p /\
    findAnchorRange (nodes m) p (sel_attrs m !! "anchorId") = Some (s, e) /\
    AnchorCommand_execute m id flags = Some m' /\
    findAnchorRange (nodes m') p (Some (VStr id)) = Some (s', e') /\
    s' <= s /\ e <= e' /\
    ((forall c, 0 < s -> flatten (nodes m) !! (s - 1) = Some c ->
                cell_matches (Some (VStr id)) c = false) -> s' = s) /\
    ((forall c, flatten (nodes m) !! e = Some c ->
                cell_matches (Some (VStr id)) c = false) -> e' = e).
Proof.
  intros Hc Ha Hid Hne Hvalid.
  destruct (execute_in_span m id flags Hc Ha) as (p & [s e] & Hp & Hspan & Hex).
  specialize (Hvalid p Hp).
  set (t := (splitDecorators flags).1) in *. set (f := (splitDecorators flags).2) in *.
  set (m' := writer_setSelection (s, e) (anchor_op id t f (s, e) m)) in *.
  assert (Hne' : no_empty_node (nodes m')) by (by apply no_empty_node_anchor_op).
  assert (Hcells : forall o, flatten (nodes m') !! o
                   = (fun c => if in_range (s, e) o then cell_map (anchor_write id t f) c else c)
                       <$> flatten (nodes m) !! o).
  { intros o. apply lookup_anchor_op. }
  assert (Hin : forall o c', s <= o < e -> flatten (nodes m') !! o = Some c' ->
                             cell_matches (Some (VStr id)) c' = true).
  { intros o c' [H1 H2] Hc'. rewrite Hcells in Hc'.
    destruct (flatten (nodes m) !! o) as [c|]; [|done].
    unfold in_range in Hc'. cbn [fst snd] in Hc'.
    apply Nat.leb_le in H1. apply Nat.ltb_lt in H2. rewrite H1, H2 in Hc'.
    injection Hc' as <-. unfold cell_matches, cell_map, t, f. cbn [snd].
    destruct (anchor_write_attrs id flags (snd c) Hid) as [-> _]. simpl.
    by apply bool_decide_eq_true. }
  assert (Hout : forall o, ~ (s <= o < e) -> flatten (nodes m') !! o = flatten (nodes m) !! o).
  { intros o Ho. rewrite Hcells. destruct (flatten (nodes m) !! o) as [c|]; [|done].
    assert (in_range (s, e) o = false) as ->; [|done].
    unfold in_range. cbn [fst snd]. apply andb_false_iff.
    destruct (decide (s <= o)); [right; apply Nat.ltb_ge; lia|left; apply Nat.leb_gt; lia]. }
  assert (Hlen : maxOffset (nodes m') = maxOffset (nodes m)).
  { rewrite <- !length_flatten.
    by apply (lookup_length_eq
                (fun o c => if in_range (s, e) o then cell_map (anchor_write id t f) c else c)). }
  destruct (resolved_contains_position _ _ _ s e Hspan) as [Hsp Hpe].
  pose proof (findAnchorRange_end_le _ _ _ s e Hvalid Hspan) as Hemax.
  destruct (findAnchorRange_total (nodes m') p (Some (VStr id))) as [[s' e'] Hr].
  destruct (resolved_contains_position _ _ _ s' e' Hr) as [Hsp' Hpe'].
  destruct (resolved_maximal _ _ _ s' e' Hne' Hr) as [Hb' Ha'].
  assert (Hs : s' <= s).
  { destruct (decide (s' <= s)); [done|]. exfalso.
    destruct (lookup_lt_is_Some_2 (flatten (nodes m')) (s' - 1)) as [c' Hc'];
      [rewrite length_flatten; lia|].
    pose proof (Hin (s' - 1) c' ltac:(lia) Hc') as Hyes.
    pose proof (Hb' c' ltac:(lia) Hc') as Hno. congruence. }
  assert (He : e <= e').
  { destruct (decide (e <= e')); [done|]. exfalso.
    destruct (lookup_lt_is_Some_2 (flatten (nodes m')) e') as [c' Hc'];
      [rewrite length_flatten; lia|].
    pose proof (Hin e' c' ltac:(lia) Hc') as Hyes.
    pose proof (Ha' c' Hc') as Hno. congruence. }
  exists p, s, e, m', s', e'. repeat (split; [done|]). split.
  - intros Hold. destruct (decide (s' = s)); [done|]. exfalso.
    destruct (lookup_lt_is_Some_2 (flatten (nodes m)) (s - 1)) as [c Hcell];
      [rewrite length_flatten; lia|].
    specialize (Hold c ltac:(lia) Hcell).
    assert (Hyes : cell_matches (Some (VStr id)) c = true); [|congruence].
    apply (resolved_all_match _ _ _ s' e' (s - 1) c Hr); [lia|].
    rewrite Hout by lia. done.
  - intros Hold. destruct (decide (e' = e)); [done|]. exfalso.
    destruct (lookup_lt_is_Some_2 (flatten (nodes m)) e) as [c Hcell].
    { rewrite length_flatten, <- Hlen.
      pose proof (findAnchorRange_end_le (nodes m') p (Some (VStr id)) s' e' ltac:(lia) Hr).
      lia. }
    specialize (Hold c Hcell).
    assert (Hyes : cell_matches (Some (VStr id)) c = true); [|congruence].
    apply (resolved_all_match _ _ _ s' e' e c Hr); [lia|].
    rewrite Hout by lia. done.
Qed.

End Compositions.

Lemma fold_removeSelectionAttribute (keys : list string) (m : Model) :
  let m' := foldl (fun m name => writer_removeSelectionAttribute name m) m keys in
  nodes m' = nodes m /\ sel_ranges m' = sel_ranges m /\
  schema_checkAttribute m' = schema_checkAttribute m /\
  forall k, sel_attrs m' !! k = if bool_decide (k ∈ keys) then None else sel_attrs m !! k.
Proof.
  revert m. induction keys as [|x keys IH]; intros m; simpl; [done|].
  destruct (IH (writer_removeSelectionAttribute x m)) as (-> & -> & -> & Hk).
  repeat (split; [done|]). intros k. rewrite Hk. simpl.
  case_bool_decide as H1; case_bool_decide as H2; try done.
  - rewrite elem_of_cons in H2. tauto.
  - rewrite elem_of_cons in H2. destruct H2 as [->|H2]; [|done]. apply lookup_delete_eq.
  - rewrite elem_of_cons in H2. apply lookup_delete_ne. intros ->. tauto.
Qed.

Lemma elem_of_getAttributeKeys (m : Model) (k : string) :
  k ∈ getAttributeKeys m <-> is_Some (sel_attrs m !! k).
Proof.
  unfold getAttributeKeys. rewrite list_elem_of_fmap. split.
  - intros ([k' v] & -> & Hin). apply elem_of_map_to_list in Hin. by exists v.
  - intros [v Hv]. exists (k, v). split; [done|]. by apply elem_of_map_to_list.
Qed.

Lemma filtered_keys_lookup (m : Model) (k : string) :
  (if bool_decide (k ∈ List.filter (fun name => String.prefix "anchor" name)
                         (getAttributeKeys m))
   then None else sel_attrs m !! k)
  = if String.prefix "anchor" k then None else sel_attrs m !! k.
Proof.
  case_bool_decide as Hin.
  - apply elem_of_List_filter in Hin as [_ ->]. done.
  - destruct (String.prefix "anchor" k) eqn:Hpre; [|done].
    destruct (sel_attrs m !! k) as [v|] eqn:Hv; [|done].
    destruct Hin. apply elem_of_List_filter. split; [|done].
    apply elem_of_getAttributeKeys. by exists v.
Qed.

(** X14.  The listener never changes the nodes or the ranges of the
    selection.  At the end of an anchor (see [at_end_of_anchor]) it removes
    from the selection every attribute whose name starts with [anchor] and
    keeps every other one; in every other case it leaves the model as it is. *)
Theorem insertContentFixer_effect (m : Model) (anchor : nat) :
  nodes (insertContentFixer m anchor) = nodes m /\
  sel_ranges (insertContentFixer m anchor) = sel_ranges m /\
  (at_end_of_anchor m anchor ->
   forall k, sel_attrs (insertContentFixer m anchor) !! k
             = if String.prefix "anchor" k then None else sel_attrs m !! k) /\
  (~ at_end_of_anchor m anchor -> insertContentFixer m anchor = m).
Proof.
  unfold insertContentFixer, at_end_of_anchor. cbv zeta.
  destruct (hasAttribute m "anchorId"); cbn [negb].
  2: { split; [done|]. split; [done|]. split; [by intros [? _]|done]. }
  destruct (nodeBefore (nodes m) anchor) as [b|].
  2: { split; [done|]. split; [done|]. split; [by intros (_ & (? & ? & _) & _)|done]. }
  destruct (node_hasAttribute (nodes m) b "anchorId") eqn:Hb; cbn [negb].
  2: { split; [done|]. split; [done|]. split; [|done].
       intros (_ & (b' & [= <-] & Hb') & _). congruence. }
  destruct (nodeAfter (nodes m) anchor) as [a|] eqn:Hafter.
  - destruct (node_hasAttribute (nodes m) a "anchorId") eqn:Ha.
    + split; [done|]. split; [done|]. split; [|done].
      intros (_ & _ & H). specialize (H a eq_refl). congruence.
    + destruct (fold_removeSelectionAttribute
                  (List.filter (fun name => String.prefix "anchor" name) (getAttributeKeys m)) m)
        as (Hn & Hr & _ & Hk).
      split; [done|]. split; [done|]. split.
      * intros _ k. rewrite Hk. apply filtered_keys_lookup.
      * intros H. destruct H. split; [done|]. split; [by exists b|].
        by intros a' [= <-].
  - destruct (fold_removeSelectionAttribute
                (List.filter (fun name => String.prefix "anchor" name) (getAttributeKeys m)) m)
      as (Hn & Hr & _ & Hk).
    split; [done|]. split; [done|]. split.
    + intros _ k. rewrite Hk. apply filtered_keys_lookup.
    + intros H. destruct H. split; [done|]. split; [by exists b|]. done.
Qed.

(** X15.  When the caret is strictly inside a text node, or right before a node
    that has an identifier, the fixer leaves the model as it is. *)
Theorem insertContentFixer_inside_anchor (m : Model) (anchor : nat) :
  is_Some (textNode (nodes m) anchor) \/
  (exists a, nodeAfter (nodes m) anchor = Some a /\
             node_hasAttribute (nodes m) a "anchorId" = true) ->
  insertContentFixer m anchor = m.
Proof.
  intros H. unfold insertContentFixer. cbv zeta.
  destruct (negb (hasAttribute m "anchorId")); [done|].
  destruct H as [[t Ht]|(a & Ha & Hattr)].
  - unfold nodeBefore. by rewrite Ht.
  - destruct (nodeBefore (nodes m) anchor) as [b|]; [|done].
    destruct (negb (node_hasAttribute (nodes m) b "anchorId")); [done|].
    by rewrite Ha, Hattr.
Qed.

(** X16.  The element made for an identifier is recognised as an anchor element,
    and the upcast reads the identifier back from it. *)
Theorem createAnchorElement_round_trip (id : string) :
  isAnchorElement (createAnchorElement id) = true /\
  upcastAnchorId (createAnchorElement id) = Some id.
Proof.
  split.
  - unfold isAnchorElement, createAnchorElement. simpl. by rewrite lookup_insert_eq.
  - unfold upcastAnchorId, createAnchorElement. simpl. apply lookup_singleton_eq.
Qed.

Lemma hasClass_addClass (c : string) (e : ViewElement) : hasClass c (addClass c e) = true.
Proof.
  unfold hasClass, addClass. simpl. apply bool_decide_eq_true.
  destruct (decide (c ∈ ve_classes e)) as [H|H].
  - by rewrite bool_decide_eq_true_2.
  - rewrite bool_decide_eq_false_2 by done.
    apply elem_of_app. right. by apply list_elem_of_singleton.
Qed.

Lemma removeClass_addClass (c : string) (e : ViewElement) :
  hasClass c e = false -> removeClass c (addClass c e) = e.
Proof.
  unfold hasClass, removeClass, addClass. intros H%bool_decide_eq_false.
  destruct e as [k n a cls cp pr]. simpl in *. f_equal.
  rewrite bool_decide_eq_false_2 by done.
  rewrite List.filter_app. simpl. rewrite bool_decide_eq_true_2 by done. simpl.
  rewrite app_nil_r. induction cls as [|x cls IH]; [done|]. simpl.
  rewrite not_elem_of_cons in H. destruct H as [Hx Hcls].
  rewrite bool_decide_eq_false_2 by done. simpl. f_equal. by apply IH.
Qed.

Lemma removeClass_idemp (c : string) (e : ViewElement) :
  removeClass c (removeClass c e) = removeClass c e.
Proof.
  unfold removeClass. destruct e as [k n a cls cp pr]. simpl. f_equal.
  induction cls as [|x cls IH]; [done|]. simpl.
  case_bool_decide; simpl; [done|]. rewrite bool_decide_eq_false_2 by done. simpl.
  by f_equal.
Qed.

Lemma highlight_item_inv (v0 : list ViewElement) (st : Highlight) (ch : bool) (i : nat) :
  highlight_inv v0 st -> highlight_inv v0 (highlight_item (st, ch) i).1.
Proof.
  intros [Hnd Hinv]. unfold highlight_item. cbn [fst].
  destruct (view_items st !! i) as [item|] eqn:Hi; [|done].
  destruct (bool_decide (ve_name item = "a") && negb (hasClass HIGHLIGHT_CLASS item)) eqn:E;
    [|done].
  apply andb_true_iff in E as [_ Hno%negb_true_iff]. cbn [fst].
  assert (Hnotin : i ∉ highlightedAnchors st).
  { intros Hin. specialize (Hinv i). rewrite bool_decide_eq_true_2 in Hinv by done.
    destruct Hinv as (e & _ & _ & He). rewrite Hi in He. injection He as ->.
    by rewrite hasClass_addClass in Hno. }
  assert (Hv0 : v0 !! i = Some item).
  { specialize (Hinv i). rewrite bool_decide_eq_false_2 in Hinv by done. congruence. }
  unfold set_add. rewrite bool_decide_eq_false_2 by done.
  split; cbn [highlightedAnchors view_items].
  - apply NoDup_app. split; [done|]. split; [|apply NoDup_singleton].
    intros x Hx ->%list_elem_of_singleton. done.
  - intros j. destruct (decide (j = i)) as [->|Hne].
    + rewrite bool_decide_eq_true_2
        by (apply elem_of_app; right; by apply list_elem_of_singleton).
      exists item. split; [done|]. split; [done|].
      apply list_lookup_insert_eq. by eapply lookup_lt_Some.
    + rewrite list_lookup_insert_ne by done. specialize (Hinv j).
      case_bool_decide as H1; case_bool_decide as H2; try done.
      * destruct H2. apply elem_of_app. by left.
      * apply elem_of_app in H2 as [H2|H2%list_elem_of_singleton]; done.
Qed.

Lemma highlight_fold_inv (v0 : list ViewElement) (items : list nat) (st : Highlight)
    (ch : bool) :
  highlight_inv v0 st -> highlight_inv v0 (foldl highlight_item (st, ch) items).1.
Proof.
  revert st ch. induction items as [|i items IH]; intros st ch Hinv; [done|].
  simpl. destruct (highlight_item (st, ch) i) as [st' ch'] eqn:E.
  apply IH. pose proof (highlight_item_inv v0 st ch i Hinv) as H. by rewrite E in H.
Qed.

Lemma highlight_inv_init (v : list ViewElement) :
  highlight_inv v {| view_items := v; highlightedAnchors := [] |}.
Proof.
  split; [apply NoDup_nil_2|]. intros i. cbn [highlightedAnchors view_items].
  rewrite bool_decide_eq_false_2; [done|]. apply not_elem_of_nil.
Qed.

Lemma removeHighlight_inv (v0 : list ViewElement) (st : Highlight) :
  highlight_inv v0 st -> removeHighlight st = {| view_items := v0; highlightedAnchors := [] |}.
Proof.
  intros [Hnd Hinv]. unfold removeHighlight. f_equal.
  assert (Hfold : forall (s : list nat) (v : list ViewElement) j,
            foldl (fun v i => alter (removeClass HIGHLIGHT_CLASS) i v) v s !! j
            = if bool_decide (j ∈ s) then removeClass HIGHLIGHT_CLASS <$> v !! j else v !! j).
  { intros s. induction s as [|x s IHs]; intros v j; simpl; [done|].
    rewrite IHs. destruct (decide (j = x)) as [->|Hne].
    - rewrite list_lookup_alter_eq.
      rewrite (bool_decide_eq_true_2 (x ∈ x :: s)) by apply list_elem_of_here.
      case_bool_decide; [|done].
      destruct (v !! x) as [e|]; [|done]. simpl. by rewrite removeClass_idemp.
    - rewrite list_lookup_alter_ne by done.
      case_bool_decide as H1; case_bool_decide as H2; try done.
      + destruct H2. by apply list_elem_of_further.
      + apply elem_of_cons in H2 as [->|H2]; done. }
  apply list_eq. intros j. rewrite Hfold. specialize (Hinv j).
  case_bool_decide; [|done].
  destruct Hinv as (e & -> & Hno & ->). simpl. by rewrite removeClass_addClass.
Qed.

(** Items that are not [a] elements without the class are left alone. *)
Lemma highlight_fold_done (items : list nat) (st : Highlight) (ch : bool) :
  (forall i item, i ∈ items -> view_items st !! i = Some item ->
                  ve_name item = "a" -> hasClass HIGHLIGHT_CLASS item = true) ->
  foldl highlight_item (st, ch) items = (st, ch).
Proof.
  induction items as [|i items IH]; intros Hall; [done|]. simpl.
  assert (Hstep : highlight_item (st, ch) i = (st, ch)).
  { unfold highlight_item. cbn [fst].
    destruct (view_items st !! i) as [item|] eqn:Hi; [|done].
    case_bool_decide as Hn; [|done]. simpl.
    by rewrite (Hall i item (list_elem_of_here _ _) Hi Hn). }
  rewrite Hstep. apply IH. intros j item Hj. apply Hall. by apply list_elem_of_further.
Qed.

Lemma highlight_item_grows (st : Highlight) (ch : bool) (i j : nat) (item : ViewElement) :
  view_items st !! j = Some item ->
  exists item', view_items (highlight_item (st, ch) i).1 !! j = Some item' /\
                ve_name item' = ve_name item /\
                (hasClass HIGHLIGHT_CLASS item = true -> hasClass HIGHLIGHT_CLASS item' = true).
Proof.
  intros Hj. unfold highlight_item. cbn [fst].
  destruct (view_items st !! i) as [x|] eqn:Hi; [|by exists item].
  destruct (_ && _); [|by exists item]. cbn [fst view_items].
  destruct (decide (j = i)) as [->|Hne].
  - rewrite list_lookup_insert_eq by (by eapply lookup_lt_Some).
    exists (addClass HIGHLIGHT_CLASS x). split; [done|].
    assert (x = item) as -> by congruence. split; [done|]. intros _. apply hasClass_addClass.
  - rewrite list_lookup_insert_ne by done. by exists item.
Qed.

Lemma highlight_item_sets (st : Highlight) (ch : bool) (i : nat) (item : ViewElement) :
  view_items (highlight_item (st, ch) i).1 !! i = Some item ->
  ve_name item = "a" -> hasClass HIGHLIGHT_CLASS item = true.
Proof.
  unfold highlight_item. cbn [fst].
  destruct (view_items st !! i) as [x|] eqn:Hi; [|cbn [fst]; congruence].
  destruct (bool_decide (ve_name x = "a")) eqn:Hn; cbn [andb].
  - destruct (hasClass HIGHLIGHT_CLASS x) eqn:Hc; cbn [negb fst view_items].
    + intros Hx _. congruence.
    + rewrite list_lookup_insert_eq by (by eapply lookup_lt_Some).
      intros [= <-] _. apply hasClass_addClass.
  - cbn [fst]. intros Hx Hname. apply bool_decide_eq_false in Hn. congruence.
Qed.

Lemma highlight_fold_grows (items : list nat) (st : Highlight) (ch : bool) (j : nat)
    (item : ViewElement) :
  view_items st !! j = Some item ->
  exists item', view_items (foldl highlight_item (st, ch) items).1 !! j = Some item' /\
                ve_name item' = ve_name item /\
                (hasClass HIGHLIGHT_CLASS item = true -> hasClass HIGHLIGHT_CLASS item' = true).
Proof.
  revert st ch item. induction items as [|i items IH]; intros st ch item Hj; [by exists item|].
  simpl. destruct (highlight_item_grows st ch i j item Hj) as (x & Hx & Hn & Hc).
  destruct (highlight_item (st, ch) i) as [st' ch'] eqn:E. cbn [fst] in Hx.
  destruct (IH st' ch' x Hx) as (y & Hy & Hn' & Hc'). exists y.
  split; [done|]. split; [congruence|]. tauto.
Qed.

Lemma highlight_item_length (st : Highlight) (ch : bool) (i : nat) :
  length (view_items (highlight_item (st, ch) i).1) = length (view_items st).
Proof.
  unfold highlight_item. cbn [fst].
  destruct (view_items st !! i) as [x|]; [|done].
  destruct (_ && _); [|done]. cbn [fst view_items]. apply length_insert.
Qed.

Lemma highlight_fold_length (items : list nat) (st : Highlight) (ch : bool) :
  length (view_items (foldl highlight_item (st, ch) items).1) = length (view_items st).
Proof.
  revert st ch. induction items as [|i items IH]; intros st ch; [done|]. simpl.
  destruct (highlight_item (st, ch) i) as [st' ch'] eqn:E. rewrite IH.
  pose proof (highlight_item_length st ch i) as H. by rewrite E in H.
Qed.

Lemma highlight_fold_sets (items : list nat) (st : Highlight) (ch : bool) (i : nat)
    (item : ViewElement) :
  i ∈ items ->
  view_items (foldl highlight_item (st, ch) items).1 !! i = Some item ->
  ve_name item = "a" -> hasClass HIGHLIGHT_CLASS item = true.
Proof.
  revert st ch. induction items as [|x items IH]; intros st ch; [by intros ?%elem_of_nil|].
  simpl. destruct (highlight_item (st, ch) x) as [st' ch'] eqn:E.
  intros [->|Hin]%elem_of_cons Hi Hname; [|by eapply IH].
  destruct (lookup_lt_is_Some_2 (view_items st') x) as [y Hy].
  { rewrite <- (highlight_fold_length items st' ch'). by eapply lookup_lt_Some. }
  pose proof (highlight_item_sets st ch x y) as Hset. rewrite E in Hset. cbn [fst] in Hset.
  destruct (highlight_fold_grows items st' ch' x y Hy) as (z & Hz & Hn & Hc).
  assert (z = item) as -> by congruence.
  apply Hc, Hset; [done|congruence].
Qed.

Section HighlightFacts.

Context {coerce : BoolStringEq}.

(** X17.  The post-fixer returns when the selection has a range, and run a second
    time on the same selection and the same view range it changes nothing
    and returns [false]. *)
Theorem highlightPostFixer_settles (m : Model) (toViewItems : range -> list nat)
    (st : Highlight) :
  is_Some (getFirstPosition m) ->
  exists st' changed,
    highlightPostFixer m toViewItems st = Some (st', changed) /\
    highlightPostFixer m toViewItems st' = Some (st', false).
Proof.
  intros [position Hpos]. unfold highlightPostFixer.
  destruct (hasAttribute m "anchorId"); [|by eexists _, _].
  rewrite Hpos. simpl.
  destruct (findAnchorRange_total (nodes m) position (sel_attrs m !! "anchorId"))
    as [modelRange ->].
  simpl.
  destruct (foldl highlight_item (st, false) (toViewItems modelRange)) as [st' changed] eqn:E.
  exists st', changed. split; [done|]. f_equal.
  replace st' with (foldl highlight_item (st, false) (toViewItems modelRange)).1
    by (by rewrite E).
  apply highlight_fold_done. intros i item Hi.
  by apply highlight_fold_sets.
Qed.

(** X18.  After the post-fixer, [removeHighlight] gives back the view the
    post-fixer started from, when the set of highlighted anchors was empty. *)
Theorem removeHighlight_restores (m : Model) (toViewItems : range -> list nat)
    (v : list ViewElement) (st' : Highlight) (changed : bool) :
  highlightPostFixer m toViewItems {| view_items := v; highlightedAnchors := [] |}
  = Some (st', changed) ->
  removeHighlight st' = {| view_items := v; highlightedAnchors := [] |}.
Proof.
  intros Hrun. apply removeHighlight_inv. unfold highlightPostFixer in Hrun.
  destruct (hasAttribute m "anchorId").
  - destruct (getFirstPosition m) as [position|]; [|done]. simpl in Hrun.
    destruct (findAnchorRange _ _ _) as [modelRange|]; [|done]. simpl in Hrun.
    injection Hrun as Hrun.
    replace st' with (foldl highlight_item
                        ({| view_items := v; highlightedAnchors := [] |}, false)
                        (toViewItems modelRange)).1 by (by rewrite Hrun).
    apply highlight_fold_inv, highlight_inv_init.
  - injection Hrun as <- _. apply highlight_inv_init.
Qed.

End HighlightFacts.

Section ResolverProperties.

Context {coerce : BoolStringEq}.

(** X1.  The position lies in the range that [findAnchorRange] returns. *)
Theorem findAnchorRange_contains_position (ns : list node) (p : nat) value (s e : nat) :
  findAnchorRange ns p value = Some (s, e) -> s <= p <= e.
Proof. apply resolved_contains_position. Qed.

(** X2.  Every offset of the range that [findAnchorRange] returns carries an
    identifier loosely equal to the value asked for. *)
Theorem findAnchorRange_all_match (ns : list node) (p : nat) value (s e : nat) (o : nat)
    (c : cell) :
  findAnchorRange ns p value = Some (s, e) ->
  s <= o < e -> flatten ns !! o = Some c ->
  cell_matches value c = true.
Proof. apply resolved_all_match. Qed.

(** X3.  The range that [findAnchorRange] returns cannot be extended: the
    offset before it and the offset after it, when there is one, do not
    match.  No node is empty. *)
Theorem findAnchorRange_maximal (ns : list node) (p : nat) value (s e : nat) :
  no_empty_node ns ->
  findAnchorRange ns p value = Some (s, e) ->
  (forall c, 0 < s -> flatten ns !! (s - 1) = Some c -> cell_matches value c = false) /\
  (forall c, flatten ns !! e = Some c -> cell_matches value c = false).
Proof. apply resolved_maximal. Qed.

(** X4.  The range that [findAnchorRange] returns, read off the content
    offset by offset: from the position it extends over the matching offsets
    on each side.  No node is empty and the position is in the content. *)
Theorem findAnchorRange_by_cells (ns : list node) (p : nat) value :
  no_empty_node ns -> p <= maxOffset ns ->
  findAnchorRange ns p value
  = Some (p - prefix_len (cell_matches value) (reverse (take p (flatten ns))),
          p + prefix_len (cell_matches value) (drop p (flatten ns))).
Proof. apply resolved_by_cells. Qed.

End ResolverProperties.

Lemma inserted_attrs_unique (id : string) (flags : js_object) (a a0 : attrs) :
  js_get flags "anchorId" = None ->
  inserted_attrs id flags a a0 ->
  a0 = foldl (fun a item => <[item := VBool true]> a) (<["anchorId" := VStr id]> a)
         (splitDecorators flags).1.
Proof.
  intros Hflags (Hid & Htrue & Hrest). apply map_eq. intros k.
  rewrite lookup_fold_insert_true. case_bool_decide as Hk.
  - apply Htrue. by apply splitDecorators_truthy.
  - rewrite splitDecorators_truthy in Hk.
    destruct (decide (k = "anchorId")) as [->|Hne].
    + by rewrite lookup_insert_eq.
    + rewrite lookup_insert_ne by done. by apply Hrest.
Qed.

Section InsertionProperties.

Context {coerce : BoolStringEq}.

(** X19.  With the caret right after or right before a character of a text
    that has exactly the attributes which the command gives the node it
    inserts (the selection's attributes, [anchorId] set to the identifier
    and the names flagged true), the engine merges the inserted node into
    that text, and the command does not return:
    [writer.createRangeOn( node )] throws on the node, which is no child any
    more. *)
Theorem execute_insert_next_to_same_anchor (m : Model) (id : string) (flags : js_object)
    (p : nat) (ch : ascii) (a0 : attrs) :
  isCollapsed m = true -> getFirstPosition m = Some p -> p <= maxOffset (nodes m) ->
  hasAttribute m "anchorId" = false -> id <> "" -> js_get flags "anchorId" = None ->
  no_empty_node (nodes m) ->
  inserted_attrs id flags (sel_attrs m) a0 ->
  (0 < p /\ flatten (nodes m) !! (p - 1) = Some (UChar ch, a0)) \/
  flatten (nodes m) !! p = Some (UChar ch, a0) ->
  AnchorCommand_execute m id flags = None.
Proof.
  intros Hc Hp Hvalid Ha Hid Hflags Hne Hins Hcell.
  rewrite (inserted_attrs_unique id flags (sel_attrs m) a0 Hflags Hins) in Hcell.
  by apply (execute_insert_merged m id flags p ch).
Qed.

End InsertionProperties.

(** * The theorems on the sample documents *)

#[local] Existing Instance no_coercion.

Lemma findAnchorRange_covers_run_witness :
  findAnchorRange ([Text "pre" ∅] ++ doc_ABC ++ [Text "post" ∅]) 5 (Some (VStr "x"))
  = Some (3, 7).
Proof.
  apply (findAnchorRange_covers_run [Text "pre" ∅] doc_ABC [Text "post" ∅] "x" 5).
  - repeat constructor.
  - intros n [= <-]. split; [intros b|]; vm_compute; discriminate.
  - intros n [= <-]. split; [intros b|]; vm_compute; discriminate.
  - vm_compute. lia.
Defined.

Lemma findBound_no_match_is_position_witness :
  _findBound doc_ABC 2 (Some (VStr "stale")) true = Some 2 /\
  findAnchorRange doc_ABC 2 (Some (VStr "stale")) = Some (2, 2).
Proof.
  destruct (findBound_no_match_is_position doc_ABC 2 (Some (VStr "stale")) true) as [H1 H2].
  - reflexivity.
  - split; [exact H1|]. apply H2. reflexivity.
Defined.

Lemma matches_iff_carries_witness :
  (matches doc_ABC (Some (VStr "x")) (Some 1) = true <-> carries "x" node_B) /\
  (getAttribute node_B "anchorId" = None -> matches doc_ABC (Some (VStr "x")) (Some 1) = false) /\
  (forall data name,
     node_matches (Some (VStr "x")) (Text data (node_attrs node_B))
     = node_matches (Some (VStr "x")) (Element name (node_attrs node_B))).
Proof.
  apply (matches_iff_carries doc_ABC 1 node_B "x").
  - reflexivity.
  - intros b. vm_compute. discriminate.
Defined.


Lemma execute_on_valid_ranges_witness :
  exists m',
    AnchorCommand_execute selected_BC "z" [("anchorIsExternal", true)] = Some m' /\
    rewritten (fun o => covered (sel_ranges selected_BC) o && permitted selected_BC "anchorId" o)
      (anchor_attrs "z" [("anchorIsExternal", true)])
      (flatten (nodes selected_BC)) (flatten (nodes m')) /\
    sel_ranges m' = sel_ranges selected_BC.
Proof.
  apply (execute_on_valid_ranges selected_BC "z" [("anchorIsExternal", true)]);
    vm_compute; reflexivity.
Defined.


Lemma execute_empty_id_no_change_witness :
  AnchorCommand_execute caret_in_plain "" [("anchorIsExternal", true)] = Some caret_in_plain.
Proof.
  apply (execute_empty_id_no_change caret_in_plain [("anchorIsExternal", true)]);
    vm_compute; reflexivity.
Defined.





(** ** The scenarios of the specification *)

(** Caret inside [B], [execute( 'y', {} )]: all three nodes carry [y]. *)
Example scenario_rename :
  ids_of <$> AnchorCommand_execute caret_in_B "y" []
  = Some [Some (VStr "y"); Some (VStr "y"); Some (VStr "y"); Some (VStr "y")].
Proof. vm_compute. reflexivity. Qed.

(** [B] and [C] selected, the attribute not permitted on [C]: only [B] gets
    the identifier and the decorator. *)
Example scenario_disallowed :
  (fun m => (fun c => (c.2 !! "anchorId", c.2 !! "anchorIsExternal")) <$> flatten (nodes m))
    <$> AnchorCommand_execute selected_BC "z" [("anchorIsExternal", true)]
  = Some [(Some (VStr "x"), None);
          (Some (VStr "z"), Some (VBool true)); (Some (VStr "z"), Some (VBool true));
          (Some (VStr "x"), None)].
Proof. vm_compute. reflexivity. Qed.

(** Unanchor with the caret inside the anchor: every node loses the
    identifier and the decorator. *)
Example scenario_unanchor :
  (fun e => (fun c => (c.2 !! "anchorId", c.2 !! "bold")) <$> flatten (nodes (model e)))
    <$> UnanchorCommand_execute (editor_of caret_in_B ["bold"])
  = Some [(None, None); (None, None); (None, None); (None, None)].
Proof. vm_compute. reflexivity. Qed.

(** The target [undefined] is outside the identifiers: it is loosely equal
    to the missing attribute, so nodes without an identifier match it. *)
Example undefined_matches_missing :
  findAnchorRange [Text "ab" ∅; Text "cd" {["bold" := VBool true]}] 1 None = Some (0, 4).
Proof. vm_compute. reflexivity. Qed.

(** ** The further properties on the sample documents *)

Lemma sample_no_empty_node :
  no_empty_node doc_wide /\ no_empty_node doc_ABC /\ no_empty_node (splitAt 2 doc_ABC).
Proof.
  repeat split; vm_compute; repeat constructor.
Qed.

Lemma findAnchorRange_contains_position_witness :
  findAnchorRange doc_wide 5 (Some (VStr "x")) = Some (3, 7) /\ 3 <= 5 <= 7.
Proof.
  split; [vm_compute; reflexivity|].
  apply (findAnchorRange_contains_position doc_wide 5 (Some (VStr "x")) 3 7).
  vm_compute. reflexivity.
Defined.

Lemma findAnchorRange_all_match_witness :
  cell_matches (Some (VStr "x")) (UChar "B", <["bold" := VBool true]> id_x) = true.
Proof.
  apply (findAnchorRange_all_match doc_wide 5 (Some (VStr "x")) 3 7 4).
  - vm_compute. reflexivity.
  - lia.
  - vm_compute. reflexivity.
Defined.

Lemma findAnchorRange_maximal_witness :
  (forall c, 0 < 3 -> flatten doc_wide !! (3 - 1) = Some c ->
             cell_matches (Some (VStr "x")) c = false) /\
  (forall c, flatten doc_wide !! 7 = Some c -> cell_matches (Some (VStr "x")) c = false).
Proof.
  apply (findAnchorRange_maximal doc_wide 5 (Some (VStr "x")) 3 7).
  - apply sample_no_empty_node.
  - vm_compute. reflexivity.
Defined.

Lemma findAnchorRange_by_cells_witness :
  findAnchorRange doc_wide 5 (Some (VStr "x"))
  = Some (5 - prefix_len (cell_matches (Some (VStr "x"))) (reverse (take 5 (flatten doc_wide))),
          5 + prefix_len (cell_matches (Some (VStr "x"))) (drop 5 (flatten doc_wide))).
Proof.
  apply (findAnchorRange_by_cells doc_wide 5 (Some (VStr "x"))).
  - apply sample_no_empty_node.
  - vm_compute. lia.
Defined.

Lemma findAnchorRange_content_only_witness :
  findAnchorRange doc_ABC 2 (Some (VStr "x"))
  = findAnchorRange (splitAt 2 doc_ABC) 2 (Some (VStr "x")).
Proof.
  apply (findAnchorRange_content_only doc_ABC (splitAt 2 doc_ABC) 2 (Some (VStr "x"))).
  - apply sample_no_empty_node.
  - apply sample_no_empty_node.
  - vm_compute. reflexivity.
  - vm_compute. lia.
Defined.

Lemma findAnchorRange_stable_witness :
  findAnchorRange doc_wide 3 (Some (VStr "x")) = Some (3, 7).
Proof.
  apply (findAnchorRange_stable doc_wide 5 3 (Some (VStr "x")) 3 7).
  - apply sample_no_empty_node.
  - vm_compute. lia.
  - vm_compute. reflexivity.
  - lia.
Defined.

Lemma findAnchorRange_run_edges_witness :
  findAnchorRange ([Text "pre" ∅] ++ doc_ABC ++ [Text "post" ∅]) 7 (Some (VStr "x"))
  = Some (maxOffset [Text "pre" ∅], maxOffset [Text "pre" ∅] + maxOffset doc_ABC).
Proof.
  apply (findAnchorRange_run_edges [Text "pre" ∅] doc_ABC [Text "post" ∅] (Some (VStr "x")) 7).
  - apply sample_no_empty_node.
  - repeat constructor.
  - intros n [= <-]. vm_compute. reflexivity.
  - intros n [= <-]. vm_compute. reflexivity.
  - vm_compute. lia.
Defined.

Lemma rename_then_resolve_witness :
  exists p s e m' s' e',
    getFirstPosition caret_in_wide = Some p /\
    findAnchorRange (nodes caret_in_wide) p (sel_attrs caret_in_wide !! "anchorId")
    = Some (s, e) /\
    AnchorCommand_execute caret_in_wide "y" [] = Some m' /\
    findAnchorRange (nodes m') p (Some (VStr "y")) = Some (s', e') /\
    s' <= s /\ e <= e' /\
    ((forall c, 0 < s -> flatten (nodes caret_in_wide) !! (s - 1) = Some c ->
                cell_matches (Some (VStr "y")) c = false) -> s' = s) /\
    ((forall c, flatten (nodes caret_in_wide) !! e = Some c ->
                cell_matches (Some (VStr "y")) c = false) -> e' = e).
Proof.
  apply (rename_then_resolve caret_in_wide "y" []).
  - vm_compute. reflexivity.
  - vm_compute. reflexivity.
  - reflexivity.
  - apply sample_no_empty_node.
  - intros p Hp. vm_compute in Hp. injection Hp as <-. vm_compute. lia.
Defined.

Lemma execute_disabled_no_change_witness :
  AnchorCommand_execute selected_C "z" [("anchorIsExternal", true)] = Some selected_C.
Proof.
  apply (execute_disabled_no_change selected_C {| manualDecorators := [] |} "z"
           [("anchorIsExternal", true)]); vm_compute; reflexivity.
Defined.

Lemma execute_enabled_writes_witness :
  exists m' o c',
    AnchorCommand_execute selected_BC "z" [] = Some m' /\
    covered (sel_ranges selected_BC) o = true /\
    flatten (nodes m') !! o = Some c' /\
    c'.2 !! "anchorId" = Some (VStr "z").
Proof.
  apply (execute_enabled_writes selected_BC {| manualDecorators := [] |} "z" []).
  - vm_compute. reflexivity.
  - vm_compute. reflexivity.
  - apply sample_no_empty_node.
  - reflexivity.
Defined.

Lemma unanchor_keeps_plain_content_witness :
  exists editor',
    UnanchorCommand_execute (editor_of caret_in_wide []) = Some editor' /\
    forall o c, flatten (nodes (model (editor_of caret_in_wide []))) !! o = Some c ->
                c.2 !! "anchorId" = None ->
                flatten (nodes (model editor')) !! o = Some c.
Proof.
  apply (unanchor_keeps_plain_content (editor_of caret_in_wide []));
    vm_compute; reflexivity.
Defined.

Lemma anchor_then_unanchor_restores_witness :
  exists m1 editor2,
    AnchorCommand_execute selected_plain "z" [("anchorIsExternal", true)] = Some m1 /\
    UnanchorCommand_execute
      {| model := m1;
         commands_anchor := commands_anchor (editor_of selected_plain ["anchorIsExternal"]) |}
    = Some editor2 /\
    flatten (nodes (model editor2)) = flatten (nodes selected_plain).
Proof.
  apply (anchor_then_unanchor_restores (editor_of selected_plain ["anchorIsExternal"]) "z"
           [("anchorIsExternal", true)]).
  - vm_compute. reflexivity.
  - intros name Hname. unfold js_get in Hname. simpl in Hname.
    case_bool_decide; [subst name|discriminate]. constructor.
  - intros o c Ho Hc.
    destruct o as [|[|[|o]]]; try (vm_compute in Ho; discriminate);
      injection Hc as <-; repeat split; intros; apply lookup_empty.
Defined.

Lemma unanchor_twice_witness :
  exists editor1 editor2,
    UnanchorCommand_execute (editor_of selected_BC ["bold"]) = Some editor1 /\
    UnanchorCommand_execute editor1 = Some editor2 /\
    flatten (nodes (model editor2)) = flatten (nodes (model editor1)).
Proof.
  apply (unanchor_twice (editor_of selected_BC ["bold"])). vm_compute. reflexivity.
Defined.

Lemma insertContentFixer_inside_anchor_witness :
  insertContentFixer caret_in_B 2 = caret_in_B.
Proof.
  apply (insertContentFixer_inside_anchor caret_in_B 2).
  left. exists 1. vm_compute. reflexivity.
Defined.

(** At the end of an anchor the listener on [insertContent] frees the
    selection of the attributes of the anchor and keeps the others. *)
Example fixer_at_end_of_anchor :
  sel_attrs (insertContentFixer caret_at_end_of_anchor 1) = {["bold" := VBool true]}.
Proof. vm_compute. reflexivity. Qed.

Lemma highlightPostFixer_settles_witness :
  exists st' changed,
    highlightPostFixer caret_in_B both_items
      {| view_items := view_two; highlightedAnchors := [] |} = Some (st', changed) /\
    highlightPostFixer caret_in_B both_items st' = Some (st', false).
Proof.
  apply (highlightPostFixer_settles caret_in_B both_items
           {| view_items := view_two; highlightedAnchors := [] |}).
  exists 2. reflexivity.
Defined.

Lemma removeHighlight_restores_witness :
  removeHighlight {| view_items := addClass HIGHLIGHT_CLASS <$> view_two;
                     highlightedAnchors := [0; 1] |}
  = {| view_items := view_two; highlightedAnchors := [] |}.
Proof.
  apply (removeHighlight_restores caret_in_B both_items view_two _ true).
  vm_compute. reflexivity.
Defined.

Lemma execute_insert_next_to_same_anchor_witness :
  AnchorCommand_execute caret_after_anchor "x" [] = None.
Proof.
  apply (execute_insert_next_to_same_anchor caret_after_anchor "x" [] 1 "x" id_x).
  - vm_compute. reflexivity.
  - vm_compute. reflexivity.
  - vm_compute. lia.
  - vm_compute. reflexivity.
  - discriminate.
  - reflexivity.
  - vm_compute. repeat constructor.
  - repeat split.
    + intros name [=].
    + intros key Hne _. unfold id_x. rewrite lookup_singleton_ne by done. done.
  - left. split; [lia|]. vm_compute. reflexivity.
Defined.
